(** * Bikewatching: traffic aggregation and reactive recomputation

    A shallow embedding of [map.js]: the helper functions
    [minutesSinceMidnight], [filterTripsbyTime] and [computeStationTraffic],
    the two d3 scales the page uses ([stationFlow], [radiusScale]) and the
    handlers [updatePositions], [updateScatterPlot] and [updateTimeDisplay].

    Conventions of the embedding.
    - Station objects live in a store ([gmap loc Station]); a JavaScript
      array of stations is a list of locations, so that the in-place
      mutation done by [computeStationTraffic] and the sharing of the same
      objects between the [stations] array and the data bound to the
      circles is visible.
    - JavaScript numbers are idealised: finite doubles are rationals
      ([Q]), the square root of the radius scale is the real square root.
      Counts are integers ([Z]).
    - The d3 functions ([d3.rollup], [d3.max], [d3.scaleQuantize],
      [d3.scaleSqrt]) are imported by the page from d3 7.9.0; their models
      follow that library's implementation. *)

From Stdlib Require Import ZArith QArith Qabs Reals Qreals Lra Lia.
From stdpp Require Import gmap strings list fin_maps.

Local Open Scope Z_scope.

(** ** JavaScript values *)

(** The value of a derived station field: absent ([undefined]), an integer
    number, or [NaN]. *)
Inductive jsval : Type :=
  | undefined
  | int (z : Z)
  | nan.

(** A JavaScript number: a finite double (idealised as a rational),
    an infinity or [NaN]. *)
Inductive number : Type :=
  | Fin (q : Q)
  | Infinity
  | NegInfinity
  | NaN.

(** [a + b] on field values: [undefined + x] is [NaN]. *)
Definition js_add (a b : jsval) : jsval :=
  match a, b with
  | int x, int y => int (x + y)
  | _, _ => nan
  end.

(** [o ?? d] where [o] is the result of [Map.prototype.get]. *)
Definition nullish (o : option Z) (d : Z) : Z :=
  match o with
  | Some v => v
  | None => d
  end.

(** ** Data model *)

(** A [Date]: the wall-clock hour and minute are what the page reads;
    [new Date(s)] of an unparsable string is the invalid date. *)
Inductive Date : Type :=
  | DateTime (day : Z) (hours minutes : Z)
  | InvalidDate.

Record Trip : Type := mkTrip {
  start_station_id : string;
  end_station_id : string;
  started_at : Date;
  ended_at : Date
}.

Record Station : Type := mkStation {
  short_name : string;
  lon : Q;
  lat : Q;
  arrivals : jsval;
  departures : jsval;
  totalTraffic : jsval
}.

Definition set_arrivals (v : jsval) (s : Station) : Station :=
  mkStation (short_name s) (lon s) (lat s) v (departures s) (totalTraffic s).
Definition set_departures (v : jsval) (s : Station) : Station :=
  mkStation (short_name s) (lon s) (lat s) (arrivals s) v (totalTraffic s).
Definition set_totalTraffic (v : jsval) (s : Station) : Station :=
  mkStation (short_name s) (lon s) (lat s) (arrivals s) (departures s) v.

(** Station objects are referenced by location. *)
Definition loc : Type := nat.
Abbreviation store := (gmap loc Station).

(** ** d3.rollup *)

(** [d3.rollup(values, reduce, key)] groups the values by key into a map of
    arrays, in input order, and reduces every group. *)
Definition group_step (key : Trip → string)
    (groups : gmap string (list Trip)) (t : Trip) : gmap string (list Trip) :=
  match groups !! key t with
  | Some g => <[key t := g ++ [t]]> groups
  | None => <[key t := [t]]> groups
  end.

Definition d3_group (values : list Trip) (key : Trip → string)
    : gmap string (list Trip) :=
  foldl (group_step key) ∅ values.

Definition d3_rollup {V} (values : list Trip) (reduce : list Trip → V)
    (key : Trip → string) : gmap string V :=
  reduce <$> d3_group values key.

(** ** computeStationTraffic *)

(** The body of the [stations.map] callback: three assignments on the
    station object, the third reading back the first two. *)
Definition update_station (arrivalMap departureMap : gmap string Z)
    (station : Station) : Station :=
  let id := short_name station in
  let s1 := set_arrivals (int (nullish (arrivalMap !! id) 0)) station in
  let s2 := set_departures (int (nullish (departureMap !! id) 0)) s1 in
  set_totalTraffic (js_add (arrivals s2) (departures s2)) s2.

(** [computeStationTraffic(stations, trips)]: the station objects are
    mutated in the store; the result is a new array holding the same
    objects in the same order. *)
Definition computeStationTraffic (h : store) (stations : list loc)
    (trips : list Trip) : store * list loc :=
  let departureMap :=
    d3_rollup trips (λ v, Z.of_nat (length v)) start_station_id in
  let arrivalMap :=
    d3_rollup trips (λ v, Z.of_nat (length v)) end_station_id in
  (foldl (λ h l, alter (update_station arrivalMap departureMap) l h)
         h stations,
   stations).

(** Spec side: the number of trips whose [key] equals [id]. *)
Definition count_trips (key : Trip → string) (id : string)
    (trips : list Trip) : Z :=
  Z.of_nat (length (filter (λ t, key t = id) trips)).

(** The field values of the objects of an array, read from the store. *)
Definition field_values (f : Station → jsval) (h : store)
    (stations : list loc) : list jsval :=
  omap (λ l, f <$> h !! l) stations.

(** Sum of a field over an array, with JavaScript addition. *)
Definition sum_values (vs : list jsval) : jsval :=
  foldl js_add (int 0) vs.

(** The ids of the objects of an array. *)
Definition station_ids (h : store) (stations : list loc) : list string :=
  omap (λ l, short_name <$> h !! l) stations.

(** Sum of a list of integers (spec side). *)
Definition sumZ (zs : list Z) : Z := foldr Z.add 0 zs.

(** ** Arithmetic on JavaScript numbers *)

(** [a - b]. The difference of two finite values is taken exactly: this is
    what the double subtraction gives whenever both operands are integers,
    as are the minutes of a timestamp and an integer filter value; where a
    double subtraction would round (a fractional filter value), the exact
    difference stands in for it. *)
Definition js_sub (a b : number) : number :=
  match a, b with
  | NaN, _ => NaN
  | _, NaN => NaN
  | Fin x, Fin y => Fin (x - y)
  | Fin _, Infinity => NegInfinity
  | Fin _, NegInfinity => Infinity
  | Infinity, Infinity => NaN
  | Infinity, _ => Infinity
  | NegInfinity, NegInfinity => NaN
  | NegInfinity, _ => NegInfinity
  end.

(** [Math.abs(a)]. *)
Definition Math_abs (a : number) : number :=
  match a with
  | Fin x => Fin (Qabs x)
  | Infinity => Infinity
  | NegInfinity => Infinity
  | NaN => NaN
  end.

(** [a <= b]: false as soon as one side is [NaN]. *)
Definition js_le (a b : number) : bool :=
  match a, b with
  | NaN, _ => false
  | _, NaN => false
  | Fin x, Fin y => Qle_bool x y
  | NegInfinity, _ => true
  | _, Infinity => true
  | Infinity, _ => false
  | Fin _, NegInfinity => false
  end.

(** [a === b] on numbers: [NaN] equals nothing. *)
Definition js_strict_eq (a b : number) : bool :=
  match a, b with
  | Fin x, Fin y => Qeq_bool x y
  | Infinity, Infinity => true
  | NegInfinity, NegInfinity => true
  | _, _ => false
  end.

(** [+v]: the number a field value coerces to. *)
Definition to_number (v : jsval) : number :=
  match v with
  | int z => Fin (inject_Z z)
  | undefined => NaN
  | nan => NaN
  end.

(** ** Time filter *)

(** [date.getHours() * 60 + date.getMinutes()]; both getters give [NaN]
    on the invalid date. *)
Definition minutesSinceMidnight (date : Date) : number :=
  match date with
  | DateTime _ hours minutes => Fin (inject_Z (hours * 60 + minutes))
  | InvalidDate => NaN
  end.

(** The callback of [trips.filter] in [filterTripsbyTime]. *)
Definition within_hour (timeFilter : number) (trip : Trip) : bool :=
  let startedMinutes := minutesSinceMidnight (started_at trip) in
  let endedMinutes := minutesSinceMidnight (ended_at trip) in
  js_le (Math_abs (js_sub startedMinutes timeFilter)) (Fin 60)
  || js_le (Math_abs (js_sub endedMinutes timeFilter)) (Fin 60).

Definition filterTripsbyTime (trips : list Trip) (timeFilter : number)
    : list Trip :=
  if js_strict_eq timeFilter (Fin (-1)) then trips
  else List.filter (within_hour timeFilter) trips.

(** Spec side: [minutesOfDay] of a valid timestamp, and the inclusive
    60-minute window around minute [m], on integers. *)
Definition minutesOfDay (hours minutes : Z) : Z := hours * 60 + minutes.

Definition near_minute (m : Z) (date : Date) : bool :=
  match date with
  | DateTime _ hours minutes => Z.abs (minutesOfDay hours minutes - m) <=? 60
  | InvalidDate => false
  end.

Definition selected_at (m : Z) (trip : Trip) : bool :=
  near_minute m (started_at trip) || near_minute m (ended_at trip).

(** ** d3.max *)

(** One iteration of [d3.max]: [undefined] fails [!= null]; [NaN] fails
    both [max < value] and [value >= value]. *)
Definition max_step (max value : jsval) : jsval :=
  match value with
  | int v =>
      match max with
      | int m => if m <? v then int v else max
      | undefined => int v
      | nan => max
      end
  | undefined => max
  | nan => max
  end.

(** [d3.max(values)]; [undefined] when no value is comparable. *)
Definition d3_max (values : list jsval) : jsval :=
  foldl max_step undefined values.

(** ** d3.scaleQuantize *)

Record QuantizeScale : Type := mkQuantize {
  q_x0 : Q;
  q_x1 : Q;
  q_range : list Q
}.

(** [rescale]: with [n = range.length - 1], the thresholds are
    [((i + 1) * x1 - (i - n) * x0) / (n + 1)] for [i = 0 .. n-1]. *)
Definition quantize_thresholds (s : QuantizeScale) : list Q :=
  let n := (length (q_range s) - 1)%nat in
  (λ i : nat,
     (((inject_Z (Z.of_nat i) + 1) * q_x1 s
       - (inject_Z (Z.of_nat i) - inject_Z (Z.of_nat n)) * q_x0 s)
      / (inject_Z (Z.of_nat n) + 1))%Q) <$> seq 0 n.

(** The loop of [bisectRight]: [a[mid] <= x] moves [lo] up, anything else
    moves [hi] down. *)
Fixpoint bisect_loop (fuel : nat) (a : list Q) (x : number) (lo hi : nat)
    : nat :=
  match fuel with
  | O => lo
  | S fuel' =>
      if (lo <? hi)%nat then
        let mid := ((lo + hi) / 2)%nat in
        match a !! mid with
        | Some am =>
            if js_le (Fin am) x then bisect_loop fuel' a x (mid + 1)%nat hi
            else bisect_loop fuel' a x lo mid
        | None => bisect_loop fuel' a x lo mid
        end
      else lo
  end.

(** [bisectRight(a, x, lo, hi)]; a [NaN] needle returns [hi]. *)
Definition bisectRight (a : list Q) (x : number) (lo hi : nat) : nat :=
  if (lo <? hi)%nat then
    match x with
    | NaN => hi
    | _ => bisect_loop (hi - lo) a x lo hi
    end
  else lo.

(** [scale(x)]: [x != null && x <= x ? range[bisect(domain, x, 0, n)]
    : unknown]; [None] is [undefined]. *)
Definition quantize_apply (s : QuantizeScale) (x : number) : option Q :=
  if js_le x x then
    let n := (length (q_range s) - 1)%nat in
    q_range s !! bisectRight (quantize_thresholds s) x 0 n
  else None.

(** [d3.scaleQuantize().domain([0, 1]).range([0, 0.5, 1])]. *)
Definition stationFlow : QuantizeScale := mkQuantize 0 1 [0; 1 # 2; 1]%Q.

(** [d.departures / d.totalTraffic] on field values. *)
Definition js_div (a b : jsval) : number :=
  match a, b with
  | int x, int y =>
      if y =? 0 then
        if x =? 0 then NaN else if 0 <? x then Infinity else NegInfinity
      else Fin (inject_Z x / inject_Z y)
  | _, _ => NaN
  end.

(** [d.totalTraffic === 0]. *)
Definition is_zero (v : jsval) : bool :=
  match v with
  | int 0 => true
  | _ => false
  end.

(** The argument handed to [stationFlow] in [updateScatterPlot]. *)
Definition departure_ratio (d : Station) : number :=
  if is_zero (totalTraffic d) then Fin (1 # 2)
  else js_div (departures d) (totalTraffic d).

(** ** d3.scaleSqrt *)

(** A continuous scale with two-point domain and range and the square root
    as transform. The domain is stored after coercion to numbers. *)
Record SqrtScale : Type := mkSqrtScale {
  domain : number * number;
  range : Q * Q
}.

(** [scale.range([a, b])] replaces the range and keeps the domain. *)
Definition set_range (r : Q * Q) (s : SqrtScale) : SqrtScale :=
  mkSqrtScale (domain s) r.

(** [transformSqrt]: [x < 0 ? -Math.sqrt(-x) : Math.sqrt(x)]. *)
Definition transformSqrt (x : R) : R :=
  if Rlt_dec x 0 then (- sqrt (- x))%R else sqrt x.

(** [normalize(a, b)]: [(x - a) / (b - a)], the constant [0.5] on a
    collapsed interval. *)
Definition normalize (a b x : R) : R :=
  if Req_dec_T (b - a) 0 then (1 / 2)%R else ((x - a) / (b - a))%R.

(** [interpolateNumber(a, b)(t)]. *)
Definition interpolateNumber (a b t : R) : R := (a * (1 - t) + b * t)%R.

(** [bimap]: a descending domain is flipped together with the range. *)
Definition bimap (d0 d1 r0 r1 x : R) : R :=
  if Rlt_dec d1 d0 then interpolateNumber r1 r0 (normalize d1 d0 x)
  else interpolateNumber r0 r1 (normalize d0 d1 x).

(** [scale(x)]. [None] stands for the results that are not finite numbers:
    [undefined] when [+x] is [NaN], [NaN] when a domain bound is. *)
Definition scale_apply (s : SqrtScale) (x : jsval) : option R :=
  match to_number x, domain s with
  | Fin xq, (Fin d0, Fin d1) =>
      Some (bimap (transformSqrt (Q2R d0)) (transformSqrt (Q2R d1))
                  (Q2R (range s).1) (Q2R (range s).2)
                  (transformSqrt (Q2R xq)))
  | _, _ => None
  end.
(** ** The page: state, rendering effects and handlers *)

(** The value written to an attribute or style property of a circle. *)
Inductive attr_value : Type :=
  | Coord (q : Q)
  | Radius (r : option R)
  | Flow (q : option Q).

(** One [setAttribute] / [style.setProperty] on the [node]-th element of a
    selection. *)
Record write : Type := mkWrite {
  node : nat;
  name : string;
  value : attr_value
}.

(** [map.project]: the current view's projection of (lon, lat) to screen
    coordinates, provided by the map library. *)
Definition projection : Type := Q → Q → Q * Q.

(** [getCoords(station)]. *)
Definition getCoords (project : projection) (station : Station) : Q * Q :=
  project (lon station) (lat station).

(** [selection.attr(name, f)] and [selection.style(name, f)]: one write per
    element, in order, of [f] applied to the bound object. *)
Definition selection_attr (h : store) (selection : list loc) (name : string)
    (f : Station → attr_value) : list write :=
  omap (λ p : nat * loc, (λ d, mkWrite p.1 name (f d)) <$> h !! p.2)
       (imap pair selection).

(** The variables of the [load] handler's closure. [circles] holds, per
    element of the selection created at start-up, the station object bound
    to it; the station objects themselves are in [heap]. The elements of
    the document are not part of this state. *)
Record State : Type := mkState {
  heap : store;
  stations : list loc;
  trips : list Trip;
  radiusScale : SqrtScale;
  circles : list loc;
  timeFilter : number
}.

(** Assignments to the closure's variables. *)
Definition set_timeFilter (v : number) (st : State) : State :=
  mkState (heap st) (stations st) (trips st) (radiusScale st) (circles st) v.

(** The effect on the state of an aggregation pass over [stations] that
    leaves the store [h], followed by [radiusScale.range(r)]. *)
Definition set_heap_range (h : store) (r : Q * Q) (st : State) : State :=
  mkState h (stations st) (trips st) (set_range r (radiusScale st))
          (circles st) (timeFilter st).

(** [updatePositions()]: three [attr] calls on [circles]. *)
Definition updatePositions (project : projection) (st : State)
    : State * list write :=
  (st,
   selection_attr (heap st) (circles st) "cx"
     (λ d, Coord (getCoords project d).1)
   ++ selection_attr (heap st) (circles st) "cy"
     (λ d, Coord (getCoords project d).2)
   ++ selection_attr (heap st) (circles st) "r"
     (λ d, Radius (scale_apply (radiusScale st) (totalTraffic d)))).

(** [updateScatterPlot(timeFilter)]. The writes are those of the four calls
    chained after [join]; they go to the joined selection, which has one
    element per object of [filteredStations], in order, and [node] counts
    in that selection. When the ids of the stations are pairwise distinct
    the keyed join reuses the start-up circles in order, so that element i
    of the joined selection is element i of [circles] and nothing enters or
    exits. With repeated ids the join removes and appends elements; which
    element of the document an element of the joined selection is, and the
    attributes the enter branch gives a new element, are not followed. *)
Definition updateScatterPlot (project : projection) (timeFilter : number)
    (st : State) : State * list write :=
  let filteredTrips := filterTripsbyTime (trips st) timeFilter in
  let '(h, filteredStations) :=
    computeStationTraffic (heap st) (stations st) filteredTrips in
  let st' :=
    if js_strict_eq timeFilter (Fin (-1))
    then set_heap_range h (0, 25)%Q st
    else set_heap_range h (3, 50)%Q st in
  (st',
   selection_attr h filteredStations "cx"
     (λ d, Coord (getCoords project d).1)
   ++ selection_attr h filteredStations "cy"
     (λ d, Coord (getCoords project d).2)
   ++ selection_attr h filteredStations "r"
     (λ d, Radius (scale_apply (radiusScale st') (totalTraffic d)))
   ++ selection_attr h filteredStations "--departure-ratio"
     (λ d, Flow (quantize_apply stationFlow (departure_ratio d)))).

(** [updateTimeDisplay()], given [Number(timeSlider.value)]. The two label
    updates do not feed back into the state and are left out. *)
Definition updateTimeDisplay (project : projection) (sliderValue : number)
    (st : State) : State * list write :=
  let st1 := set_timeFilter sliderValue st in
  updateScatterPlot project (timeFilter st1) st1.

(** The [load] handler once both datasets are there: initial aggregation,
    the radius scale, one circle per station, then [updatePositions()] and
    [updateTimeDisplay()]. *)
Definition init (project : projection) (h0 : store) (stations0 : list loc)
    (trips0 : list Trip) (sliderValue : number) : State * list write :=
  let '(h, stations1) := computeStationTraffic h0 stations0 trips0 in
  let scale :=
    mkSqrtScale
      (to_number (int 0),
       to_number (d3_max (field_values totalTraffic h stations1)))
      (0, 25)%Q in
  let st := mkState h stations1 trips0 scale stations1 (Fin (-1)) in
  let w0 :=
    selection_attr h stations1 "r"
      (λ d, Radius (scale_apply scale (totalTraffic d))) in
  let '(st1, w1) := updatePositions project st in
  let '(st2, w2) := updateTimeDisplay project sliderValue st1 in
  (st2, w0 ++ w1 ++ w2).

(** The events the page reacts to after start-up. *)
Inductive event : Type :=
  | SliderInput (sliderValue : number)
  | ViewTransform (project : projection).

(** The projection in force is the one of the last view transform. *)
Definition step (cfg : projection * State) (e : event)
    : projection * State * list write :=
  match e with
  | SliderInput v =>
      let '(st, w) := updateTimeDisplay cfg.1 v cfg.2 in (cfg.1, st, w)
  | ViewTransform project =>
      let '(st, w) := updatePositions project cfg.2 in (project, st, w)
  end.

Definition run (cfg : projection * State) (events : list event)
    : projection * State :=
  foldl (λ cfg e, (step cfg e).1) cfg events.

(** The filter value of the last slider input, [start] if there is none. *)
Definition last_filter (start : number) (events : list event) : number :=
  foldl (λ v e, match e with SliderInput v' => v' | ViewTransform _ => v end)
        start events.

(** Spec side: all the writes of a handler are positional. *)
Definition only_positional (ws : list write) : Prop :=
  ∀ w, w ∈ ws → name w = "cx" ∨ name w = "cy".


(** Spec side: the range policy. *)
Definition range_policy (timeFilter : number) : Q * Q :=
  if js_strict_eq timeFilter (Fin (-1)) then (0, 25)%Q else (3, 50)%Q.
(** ** Concrete data *)

(** The scenario of the testable properties: stations A and B, one trip
    A -> B from 08:00 to 08:10 and one trip B -> A from 08:05 to 08:20. *)
Module Scenario.

Definition stationA : Station :=
  mkStation "A" 0 0 undefined undefined undefined.
Definition stationB : Station :=
  mkStation "B" 0 0 undefined undefined undefined.

Definition h0 : store := <[1%nat := stationB]> (<[0%nat := stationA]> ∅).
Definition stations0 : list loc := [0%nat; 1%nat].

Definition trip1 : Trip :=
  mkTrip "A" "B" (DateTime 1 8 0) (DateTime 1 8 10).
Definition trip2 : Trip :=
  mkTrip "B" "A" (DateTime 1 8 5) (DateTime 1 8 20).
Definition trips0 : list Trip := [trip1; trip2].

(** A projection: the identity on coordinates. *)
Definition project0 : projection := λ lon lat, (lon, lat).

(** Two station records carrying the same id. *)
Definition twins : store := <[1%nat := stationA]> (<[0%nat := stationA]> ∅).

(** A trip that starts and ends at 23:50. *)
Definition late_trip : Trip :=
  mkTrip "A" "B" (DateTime 1 23 50) (DateTime 1 23 50).

End Scenario.

(** Spec side: the sum of a field over the array is a number between 0 and
    the number of trips. *)
Definition sum_within (f : Station → jsval) (h : store) (stations : list loc)
    (trips : list Trip) : Prop :=
  ∃ z, sum_values (field_values f h stations) = int z
       ∧ 0 ≤ z ≤ Z.of_nat (length trips).

(** Spec side: the id is the id of some object of the array. *)
Definition known (h : store) (stations : list loc) (id : string) : Prop :=
  id ∈ station_ids h stations.

#[global] Instance known_dec h stations id : Decision (known h stations id).
Proof. unfold known. apply _. Defined.


(** The station object a pass over no trips leaves. *)
Definition zeroed (s : Station) : Station :=
  mkStation (short_name s) (lon s) (lat s) (int 0) (int 0) (int 0).

(** The largest totalTraffic of the aggregation over all the trips, as
    [d3.max] gives it. *)
Definition initial_max (h0 : store) (stations0 : list loc)
    (trips0 : list Trip) : jsval :=
  d3_max (field_values totalTraffic
            (computeStationTraffic h0 stations0 trips0).1 stations0).

(** The state the page is in once started on the given data and after the
    given events. *)
Definition reached (project : projection) (h0 : store) (stations0 : list loc)
    (trips0 : list Trip) (sliderValue : number) (events : list event)
    : State :=
  (run (project, (init project h0 stations0 trips0 sliderValue).1) events).2.

(** Closed form of the states of the page: the store is the aggregation of
    the trips selected by [v], the scale has the start-up domain and the
    range chosen for [v]. *)
Definition page_state (h0 : store) (stations0 : list loc)
    (trips0 : list Trip) (v : number) : State :=
  mkState
    (computeStationTraffic h0 stations0 (filterTripsbyTime trips0 v)).1
    stations0 trips0
    (mkSqrtScale (Fin 0, to_number (initial_max h0 stations0 trips0))
                 (range_policy v))
    stations0 v.

(** ** Further notions used in the statements *)

(** The clock reading of a valid [Date]: hours in 0..23, minutes in 0..59.
    Nothing is asked of the invalid date. *)
Definition valid_clock (date : Date) : Prop :=
  match date with
  | DateTime _ hours minutes => 0 ≤ hours ≤ 23 ∧ 0 ≤ minutes ≤ 59
  | InvalidDate => True
  end.

(** Both timestamps of a trip carry a valid clock reading. *)
Definition valid_times (trip : Trip) : Prop :=
  valid_clock (started_at trip) ∧ valid_clock (ended_at trip).

(** The three style values of the flow scale in terms of the two counts:
    1 when departures are at least twice the arrivals, 0 when arrivals are
    more than twice the departures, 0.5 in between. *)
Definition flow_of_counts (arr dep : Z) : Q :=
  if 2 * arr <=? dep then 1%Q
  else if arr <=? 2 * dep then (1 # 2)%Q else 0%Q.

(** The midpoint of the range of a scale. *)
Definition range_midpoint (s : SqrtScale) : R :=
  ((Q2R (range s).1 + Q2R (range s).2) / 2)%R.
(** ** Facts about d3.rollup *)

Lemma d3_group_lookup key values id :
  d3_group values key !! id =
    match filter (λ t, key t = id) values with
    | [] => None
    | g => Some g
    end.
Proof.
  unfold d3_group.
  induction values as [|t values IH] using rev_ind.
  { simpl. by rewrite lookup_empty. }
  rewrite foldl_app, filter_app. simpl.
  unfold group_step at 1.
  destruct (decide (key t = id)) as [Heq|Hne].
  - rewrite Heq, IH, filter_cons_True, filter_nil by done.
    destruct (filter _ values); simpl.
    + by rewrite lookup_insert_eq.
    + by rewrite lookup_insert_eq.
  - rewrite filter_cons_False, filter_nil, app_nil_r by done.
    destruct (foldl _ _ _ !! key t); by rewrite lookup_insert_ne.
Qed.

Lemma rollup_length_lookup key values id :
  d3_rollup values (λ v, Z.of_nat (length v)) key !! id =
    if decide (count_trips key id values = 0) then None
    else Some (count_trips key id values).
Proof.
  unfold d3_rollup, count_trips.
  rewrite lookup_fmap, d3_group_lookup.
  by destruct (filter _ values) as [|t g].
Qed.

Lemma rollup_nullish key values id :
  nullish (d3_rollup values (λ v, Z.of_nat (length v)) key !! id) 0 =
    count_trips key id values.
Proof.
  rewrite rollup_length_lookup. case_decide; simpl; congruence.
Qed.

(** ** Facts about computeStationTraffic *)

Lemma update_station_counts trips station :
  update_station
    (d3_rollup trips (λ v, Z.of_nat (length v)) end_station_id)
    (d3_rollup trips (λ v, Z.of_nat (length v)) start_station_id)
    station =
  mkStation (short_name station) (lon station) (lat station)
    (int (count_trips end_station_id (short_name station) trips))
    (int (count_trips start_station_id (short_name station) trips))
    (int (count_trips end_station_id (short_name station) trips
          + count_trips start_station_id (short_name station) trips)).
Proof.
  unfold update_station, set_totalTraffic, set_departures, set_arrivals.
  simpl. by rewrite !rollup_nullish.
Qed.

(** Applying the callback to an object that already went through it (with
    any trips) gives the same object as applying it directly. *)
Lemma update_station_overwrite a d a' d' s :
  update_station a d (update_station a' d' s) = update_station a d s.
Proof. done. Qed.

Lemma foldl_alter_lookup (f : Station → Station) (h : store)
    (stations : list loc) (l : loc) :
  (∀ s, f (f s) = f s) →
  foldl (λ h l, alter f l h) h stations !! l =
    if decide (l ∈ stations) then f <$> h !! l else h !! l.
Proof.
  intros Hf. revert h.
  induction stations as [|l' stations IH]; intros h; cbn [foldl].
  { by rewrite decide_False by apply not_elem_of_nil. }
  rewrite IH. destruct (decide (l' = l)) as [->|Hne].
  - rewrite lookup_alter_eq.
    rewrite (decide_True (P := l ∈ l :: stations))
      by (apply elem_of_cons; by left).
    case_decide; [|done].
    destruct (h !! l); simpl; by rewrite ?Hf.
  - rewrite lookup_alter_ne by done.
    destruct (decide (l ∈ stations)) as [Hin|Hnin].
    + by rewrite decide_True by (apply elem_of_cons; by right).
    + rewrite decide_False; [done|].
      intros [?|?]%elem_of_cons; congruence.
Qed.

Lemma computeStationTraffic_lookup h stations trips l :
  (computeStationTraffic h stations trips).1 !! l =
    if decide (l ∈ stations) then
      update_station
        (d3_rollup trips (λ v, Z.of_nat (length v)) end_station_id)
        (d3_rollup trips (λ v, Z.of_nat (length v)) start_station_id)
      <$> h !! l
    else h !! l.
Proof.
  unfold computeStationTraffic. simpl.
  apply foldl_alter_lookup. intros s. apply update_station_overwrite.
Qed.

Lemma computeStationTraffic_array h stations trips :
  (computeStationTraffic h stations trips).2 = stations.
Proof. done. Qed.

Lemma computeStationTraffic_ids h stations trips stations' :
  station_ids (computeStationTraffic h stations trips).1 stations' =
  station_ids h stations'.
Proof.
  unfold station_ids. apply list_omap_ext.
  apply Forall2_same_length_lookup_2; [done|].
  intros i l l' Hl Hl'. assert (l' = l) as -> by congruence.
  rewrite computeStationTraffic_lookup.
  case_decide; [|done]. by destruct (h !! l).
Qed.

(** After aggregation a field of the array's objects is a function of the
    ids of these objects. *)
Lemma computeStationTraffic_field_values (f : Station → jsval)
    (c : string → jsval) h stations trips :
  (∀ s, f (update_station
         (d3_rollup trips (λ v, Z.of_nat (length v)) end_station_id)
         (d3_rollup trips (λ v, Z.of_nat (length v)) start_station_id)
         s) = c (short_name s)) →
  field_values f (computeStationTraffic h stations trips).1 stations =
  c <$> station_ids h stations.
Proof.
  intros Hf. unfold field_values, station_ids.
  rewrite list_fmap_omap. apply list_omap_ext.
  apply Forall2_same_length_lookup_2; [done|].
  intros i l l' Hl Hl'. assert (l' = l) as -> by congruence.
  rewrite computeStationTraffic_lookup.
  rewrite decide_True by by eapply list_elem_of_lookup_2.
  destruct (h !! l) as [s|]; [|done]. simpl. by rewrite Hf.
Qed.

(** ** Sums of counts *)

Lemma sum_values_int (zs : list Z) :
  sum_values (int <$> zs) = int (sumZ zs).
Proof.
  unfold sum_values.
  assert (∀ acc, foldl js_add (int acc) (int <$> zs) = int (acc + sumZ zs))
    as Hgen.
  { induction zs as [|z zs IH]; intros acc; simpl.
    - f_equal. lia.
    - rewrite IH. f_equal. lia. }
  by rewrite Hgen.
Qed.

Lemma count_trips_cons key id t trips :
  count_trips key id (t :: trips) =
    (if decide (key t = id) then 1 else 0) + count_trips key id trips.
Proof.
  unfold count_trips. case_decide.
  - rewrite filter_cons_True by done. simpl length. lia.
  - rewrite filter_cons_False by done. lia.
Qed.

Lemma count_trips_nonneg key id trips : 0 ≤ count_trips key id trips.
Proof. unfold count_trips. lia. Qed.

Lemma sumZ_cons z zs : sumZ (z :: zs) = z + sumZ zs.
Proof. done. Qed.

Lemma sum_indicator_le (x : string) (ids : list string) :
  NoDup ids →
  0 ≤ sumZ ((λ id, if decide (x = id) then 1 else 0) <$> ids) ≤ 1
  ∧ (x ∉ ids → sumZ ((λ id, if decide (x = id) then 1 else 0) <$> ids) = 0).
Proof.
  induction 1 as [|id ids Hnin Hnd [IH1 IH2]]; [by split|].
  rewrite fmap_cons, sumZ_cons.
  case_decide as Hx.
  - rewrite IH2 by congruence. split; [lia|].
    intros []. apply elem_of_cons. by left.
  - split; [lia|]. intros Hn. rewrite IH2; [lia|].
    intros ?. apply Hn. apply elem_of_cons. by right.
Qed.

Lemma sum_counts_le key (ids : list string) trips :
  NoDup ids →
  0 ≤ sumZ ((λ id, count_trips key id trips) <$> ids)
    ≤ Z.of_nat (length trips).
Proof.
  intros Hnd. induction trips as [|t trips IH].
  - assert (sumZ ((λ id, count_trips key id []) <$> ids) = 0) as ->; [|done].
    clear. induction ids as [|id ids IH]; [done|].
    by rewrite fmap_cons, sumZ_cons, IH.
  - assert (sumZ ((λ id, count_trips key id (t :: trips)) <$> ids) =
            sumZ ((λ id, if decide (key t = id) then 1 else 0) <$> ids)
            + sumZ ((λ id, count_trips key id trips) <$> ids)) as ->.
    { clear. induction ids as [|id ids IH]; [done|].
      rewrite !fmap_cons, !sumZ_cons, IH, count_trips_cons. lia. }
    pose proof (sum_indicator_le (key t) ids Hnd) as [? _].
    simpl length. lia.
Qed.

Lemma count_trips_filter (P : Trip → Prop) `{∀ t, Decision (P t)}
    key id trips :
  (∀ t, key t = id → P t) →
  count_trips key id (filter P trips) = count_trips key id trips.
Proof.
  intros HP. unfold count_trips. f_equal. f_equal.
  induction trips as [|t trips IH]; [done|].
  destruct (decide (P t)) as [Ht|Ht].
  - rewrite (filter_cons_True P) by done.
    destruct (decide (key t = id)).
    + rewrite !(filter_cons_True (λ t, key t = id)) by done. by f_equal.
    + by rewrite !(filter_cons_False (λ t, key t = id)) by done.
  - rewrite (filter_cons_False P) by done.
    rewrite (filter_cons_False (λ t, key t = id)); [done|].
    intros ?. by apply Ht, HP.
Qed.

Lemma count_trips_none key id trips :
  (∀ t, t ∈ trips → key t ≠ id) → count_trips key id trips = 0.
Proof.
  intros Hno. unfold count_trips.
  induction trips as [|t trips IH]; [done|].
  rewrite filter_cons_False.
  - apply IH. intros t' Ht'. apply Hno, elem_of_cons. by right.
  - apply Hno, elem_of_cons. by left.
Qed.

Lemma station_ids_elem h stations l s :
  l ∈ stations → h !! l = Some s → short_name s ∈ station_ids h stations.
Proof.
  intros Hl Hs. unfold station_ids. apply list_elem_of_omap.
  exists l. by rewrite Hs.
Qed.

(** The object an aggregation pass leaves at a location of the array. *)
Lemma computeStationTraffic_at h stations trips l s :
  l ∈ stations → h !! l = Some s →
  (computeStationTraffic h stations trips).1 !! l =
    Some (mkStation (short_name s) (lon s) (lat s)
      (int (count_trips end_station_id (short_name s) trips))
      (int (count_trips start_station_id (short_name s) trips))
      (int (count_trips end_station_id (short_name s) trips
            + count_trips start_station_id (short_name s) trips))).
Proof.
  intros Hl Hs. rewrite computeStationTraffic_lookup.
  rewrite decide_True, Hs by done. simpl. by rewrite update_station_counts.
Qed.

(** Two trip lists with the same counts at every id of the array give the
    same aggregation. *)
Lemma computeStationTraffic_ext h stations trips trips' :
  (∀ id, known h stations id →
     count_trips start_station_id id trips =
       count_trips start_station_id id trips'
     ∧ count_trips end_station_id id trips =
       count_trips end_station_id id trips') →
  computeStationTraffic h stations trips =
  computeStationTraffic h stations trips'.
Proof.
  intros Hc. apply injective_projections; [|done].
  apply map_eq. intros l. rewrite !computeStationTraffic_lookup.
  case_decide as Hl; [|done].
  destruct (h !! l) as [s|] eqn:Hs; [|done]. simpl.
  rewrite !update_station_counts.
  destruct (Hc (short_name s)) as [-> ->]; [|done].
  by eapply station_ids_elem.
Qed.

Lemma sum_within_counts key (f : Station → jsval) h stations trips :
  (∀ s, f (update_station
         (d3_rollup trips (λ v, Z.of_nat (length v)) end_station_id)
         (d3_rollup trips (λ v, Z.of_nat (length v)) start_station_id)
         s) = int (count_trips key (short_name s) trips)) →
  NoDup (station_ids h stations) →
  sum_within f (computeStationTraffic h stations trips).1 stations trips.
Proof.
  intros Hf Hnd. unfold sum_within.
  rewrite (computeStationTraffic_field_values f
             (λ id, int (count_trips key id trips))) by done.
  rewrite (list_fmap_compose (λ id, count_trips key id trips) int).
  rewrite sum_values_int. eexists. split; [done|].
  by apply sum_counts_le.
Qed.

Lemma field_values_counts_ext key (f : Station → jsval) h stations
    trips trips' :
  (∀ trips s, f (update_station
         (d3_rollup trips (λ v, Z.of_nat (length v)) end_station_id)
         (d3_rollup trips (λ v, Z.of_nat (length v)) start_station_id)
         s) = int (count_trips key (short_name s) trips)) →
  (∀ id, known h stations id →
     count_trips key id trips = count_trips key id trips') →
  field_values f (computeStationTraffic h stations trips).1 stations =
  field_values f (computeStationTraffic h stations trips').1 stations.
Proof.
  intros Hf Hc.
  rewrite (computeStationTraffic_field_values f
             (λ id, int (count_trips key id trips))) by done.
  rewrite (computeStationTraffic_field_values f
             (λ id, int (count_trips key id trips'))) by done.
  apply list_fmap_ext. intros i id Hid. simpl. f_equal.
  apply Hc. by eapply list_elem_of_lookup_2.
Qed.

(** A pass overwrites what an earlier pass left. *)
Lemma computeStationTraffic_overwrite h stations earlier trips :
  computeStationTraffic (computeStationTraffic h stations earlier).1
                        (computeStationTraffic h stations earlier).2 trips
  = computeStationTraffic h stations trips.
Proof.
  rewrite computeStationTraffic_array.
  apply injective_projections; [|done].
  apply map_eq. intros l. rewrite !computeStationTraffic_lookup.
  case_decide; [|done].
  destruct (h !! l) as [s|]; [|done]. simpl.
  by rewrite update_station_overwrite.
Qed.

(** ** Facts about the handlers *)

Lemma updatePositions_state project st : (updatePositions project st).1 = st.
Proof. done. Qed.

Lemma updateScatterPlot_state project v st :
  (updateScatterPlot project v st).1 =
  set_heap_range
    (computeStationTraffic (heap st) (stations st)
       (filterTripsbyTime (trips st) v)).1
    (range_policy v) st.
Proof.
  unfold updateScatterPlot, range_policy, computeStationTraffic.
  by destruct (js_strict_eq v (Fin (-1))).
Qed.

Lemma updateTimeDisplay_state project v st :
  (updateTimeDisplay project v st).1 =
  set_heap_range
    (computeStationTraffic (heap st) (stations st)
       (filterTripsbyTime (trips st) v)).1
    (range_policy v) (set_timeFilter v st).
Proof. unfold updateTimeDisplay. by rewrite updateScatterPlot_state. Qed.

Lemma computeStationTraffic_nil_at h stations l s :
  l ∈ stations → h !! l = Some s →
  (computeStationTraffic h stations []).1 !! l = Some (zeroed s).
Proof. intros Hl Hs. by rewrite (computeStationTraffic_at _ _ _ _ s). Qed.

(** The writes of one [attr] call. *)
Lemma selection_attr_elem h selection nm f w :
  w ∈ selection_attr h selection nm f ↔
  ∃ i l d, selection !! i = Some l ∧ h !! l = Some d
           ∧ w = mkWrite i nm (f d).
Proof.
  unfold selection_attr. rewrite list_elem_of_omap. split.
  - intros ([i l] & Hp & Hw).
    apply elem_of_lookup_imap in Hp as (i' & l' & Heq & Hl).
    injection Heq as -> ->. simpl in Hw.
    destruct (h !! l') as [d|] eqn:Hd; [|done].
    injection Hw as <-. by exists i', l', d.
  - intros (i & l & d & Hl & Hd & ->).
    exists (i, l). split.
    + by apply (elem_of_lookup_imap_2 pair).
    + simpl. by rewrite Hd.
Qed.

Lemma selection_attr_name h selection nm f w :
  w ∈ selection_attr h selection nm f → name w = nm.
Proof. rewrite selection_attr_elem. by intros (i & l & d & _ & _ & ->). Qed.

(** The writes of [updateScatterPlot], with the aggregation named. *)
Lemma updateScatterPlot_writes project v st :
  (updateScatterPlot project v st).2 =
  let h := (computeStationTraffic (heap st) (stations st)
              (filterTripsbyTime (trips st) v)).1 in
  let scale := set_range (range_policy v) (radiusScale st) in
  selection_attr h (stations st) "cx" (λ d, Coord (getCoords project d).1)
  ++ selection_attr h (stations st) "cy"
       (λ d, Coord (getCoords project d).2)
  ++ selection_attr h (stations st) "r"
       (λ d, Radius (scale_apply scale (totalTraffic d)))
  ++ selection_attr h (stations st) "--departure-ratio"
       (λ d, Flow (quantize_apply stationFlow (departure_ratio d))).
Proof.
  unfold updateScatterPlot, range_policy, computeStationTraffic.
  by destruct (js_strict_eq v (Fin (-1))).
Qed.


(** ** The states the page goes through *)

Lemma updateTimeDisplay_page_state project h0 stations0 trips0 v v' :
  (updateTimeDisplay project v' (page_state h0 stations0 trips0 v)).1 =
  page_state h0 stations0 trips0 v'.
Proof.
  rewrite updateTimeDisplay_state. unfold page_state, set_heap_range.
  cbn [heap stations trips radiusScale circles timeFilter set_timeFilter
       set_range domain].
  f_equal.
  pose proof (computeStationTraffic_overwrite h0 stations0
                (filterTripsbyTime trips0 v)
                (filterTripsbyTime trips0 v')) as Hover.
  rewrite computeStationTraffic_array in Hover. by rewrite Hover.
Qed.

Lemma init_page_state project h0 stations0 trips0 v :
  (init project h0 stations0 trips0 v).1 = page_state h0 stations0 trips0 v.
Proof.
  unfold init, updatePositions.
  change (computeStationTraffic h0 stations0 trips0)
    with ((computeStationTraffic h0 stations0 trips0).1, stations0).
  cbv beta iota zeta.
  change (to_number (int 0)) with (Fin 0).
  pose proof (updateTimeDisplay_page_state project h0 stations0 trips0
                (Fin (-1)) v) as Hstep.
  unfold page_state at 1 in Hstep.
  change (filterTripsbyTime trips0 (Fin (-1))) with trips0 in Hstep.
  change (range_policy (Fin (-1))) with (0, 25)%Q in Hstep.
  unfold initial_max in Hstep.
  destruct (updateTimeDisplay project v _) as [st2 w2] eqn:Hupd.
  simpl in Hstep. by simpl.
Qed.

Lemma step_page_state project h0 stations0 trips0 v e :
  ((step (project, page_state h0 stations0 trips0 v) e).1).2 =
  page_state h0 stations0 trips0
    (match e with SliderInput v' => v' | ViewTransform _ => v end).
Proof.
  destruct e as [v'|project']; unfold step; cbn [fst snd].
  - pose proof (updateTimeDisplay_page_state project h0 stations0 trips0
                  v v') as Hstep.
    by destruct (updateTimeDisplay project v' _).
  - done.
Qed.

Lemma run_page_state project h0 stations0 trips0 v events :
  (run (project, page_state h0 stations0 trips0 v) events).2 =
  page_state h0 stations0 trips0 (last_filter v events).
Proof.
  unfold run, last_filter. revert project v.
  induction events as [|e events IH]; intros project v; [done|].
  cbn [foldl].
  pose proof (step_page_state project h0 stations0 trips0 v e) as Hstep.
  destruct (step (project, page_state h0 stations0 trips0 v) e).1
    as [project' st'].
  simpl in Hstep. subst st'. apply IH.
Qed.

Lemma reached_page_state project h0 stations0 trips0 v events :
  reached project h0 stations0 trips0 v events =
  page_state h0 stations0 trips0 (last_filter v events).
Proof. unfold reached. by rewrite init_page_state, run_page_state. Qed.

(** ** Facts about the flow scale *)

Lemma stationFlow_thresholds :
  quantize_thresholds stationFlow = [1 # 3; 2 # 3]%Q.
Proof. reflexivity. Qed.

Lemma js_le_refl_Fin (q : Q) : js_le (Fin q) (Fin q) = true.
Proof. apply Qle_bool_iff, Qle_refl. Qed.

(** The binary search over the two thresholds, unrolled. *)
Lemma stationFlow_apply (r : Q) :
  quantize_apply stationFlow (Fin r) =
    Some (if Qle_bool (2 # 3) r then 1
          else if Qle_bool (1 # 3) r then 1 # 2 else 0)%Q.
Proof.
  unfold quantize_apply. rewrite js_le_refl_Fin, stationFlow_thresholds.
  cbn [stationFlow q_range length Nat.sub].
  unfold bisectRight.
  change (0 <? 2)%nat with true. cbn [Nat.sub bisect_loop].
  change (0 <? 2)%nat with true.
  change ((0 + 2) / 2)%nat with 1%nat.
  change ([1 # 3; 2 # 3]%Q !! 1%nat) with (Some (2 # 3)%Q).
  cbn [js_le].
  destruct (Qle_bool (2 # 3) r); [reflexivity|].
  change (0 <? 1)%nat with true.
  change ((0 + 1) / 2)%nat with 0%nat.
  change ([1 # 3; 2 # 3]%Q !! 0%nat) with (Some (1 # 3)%Q).
  cbv beta iota.
  destruct (Qle_bool (1 # 3) r); reflexivity.
Qed.

Lemma Qle_bool_false (x y : Q) : Qle_bool x y = false ↔ (y < x)%Q.
Proof.
  rewrite <- not_true_iff_false, Qle_bool_iff. split.
  - apply Qnot_le_lt.
  - apply Qlt_not_le.
Qed.

(** The ratio handed to the flow scale, for a station carrying counts. *)
Lemma departure_ratio_counts (d : Station) (a b : Z) :
  0 ≤ a → 0 ≤ b →
  departures d = int b → totalTraffic d = int (a + b) →
  ∃ r, departure_ratio d = Fin r ∧ (0 <= r <= 1)%Q
       ∧ (a + b = 0 → r = (1 # 2)%Q)
       ∧ (a + b ≠ 0 → r = (inject_Z b / inject_Z (a + b))%Q).
Proof.
  intros Ha Hb Hd Ht. unfold departure_ratio. rewrite Hd, Ht.
  destruct (decide (a + b = 0)) as [Hz|Hnz].
  - rewrite Hz. exists (1 # 2)%Q. cbn [is_zero].
    repeat split; try done; discriminate.
  - assert (is_zero (int (a + b)) = false) as ->.
    { destruct (a + b); done. }
    unfold js_div. destruct (Z.eqb_spec (a + b) 0) as [|_]; [done|].
    eexists. split; [done|]. split; [|by split].
    assert (0 < inject_Z (a + b))%Q as Hpos.
    { rewrite <- (Zlt_Qlt 0). lia. }
    split.
    + apply Qle_shift_div_l; [done|]. rewrite Qmult_0_l.
      rewrite <- (Zle_Qle 0). lia.
    + apply Qle_shift_div_r; [done|]. rewrite Qmult_1_l.
      rewrite <- Zle_Qle. lia.
Qed.

Lemma stationFlow_three_values (r : Q) :
  quantize_apply stationFlow (Fin r) = Some 0%Q
  ∨ quantize_apply stationFlow (Fin r) = Some (1 # 2)%Q
  ∨ quantize_apply stationFlow (Fin r) = Some 1%Q.
Proof.
  rewrite stationFlow_apply.
  destruct (Qle_bool (2 # 3) r); [by right; right|].
  destruct (Qle_bool (1 # 3) r); [by right; left|by left].
Qed.

(** ** Facts about the radius scale *)

Lemma Q2R_inject_Z (z : Z) : Q2R (inject_Z z) = IZR z.
Proof. unfold Q2R, inject_Z. simpl. lra. Qed.

Lemma transformSqrt_nonneg (x : R) : (0 <= x)%R → transformSqrt x = sqrt x.
Proof. intros Hx. unfold transformSqrt. destruct (Rlt_dec x 0); [lra|done]. Qed.

Lemma sqrt_IZR_pos (m : Z) : 0 < m → (0 < sqrt (IZR m))%R.
Proof. intros Hm. apply sqrt_lt_R0. by apply (IZR_lt 0). Qed.

(** The scale on a domain [0, m] with m > 0, at a count x >= 0. *)
Lemma scale_apply_sqrt (s : SqrtScale) (m x : Z) :
  domain s = (Fin 0, Fin (inject_Z m)) → 0 < m → 0 ≤ x →
  scale_apply s (int x) =
    Some (interpolateNumber (Q2R (range s).1) (Q2R (range s).2)
            (sqrt (IZR x) / sqrt (IZR m))).
Proof.
  intros Hdom Hm Hx. unfold scale_apply. rewrite Hdom.
  cbn [to_number]. f_equal.
  change 0%Q with (inject_Z 0). rewrite !Q2R_inject_Z.
  rewrite !transformSqrt_nonneg by (apply (IZR_le 0); lia).
  rewrite sqrt_0. pose proof (sqrt_IZR_pos m Hm) as Hpos.
  unfold bimap. destruct (Rlt_dec _ _) as [Hneg|_]; [lra|].
  unfold normalize. destruct (Req_dec_T _ _) as [Heq|_]; [lra|].
  f_equal. unfold Rdiv. by rewrite !Rminus_0_r.
Qed.




Lemma sqrt_ratio_mono (m x y : Z) :
  0 < m → 0 ≤ x ≤ y →
  (sqrt (IZR x) / sqrt (IZR m) <= sqrt (IZR y) / sqrt (IZR m))%R.
Proof.
  intros Hm [Hx Hxy]. pose proof (sqrt_IZR_pos m Hm) as Hpos.
  apply Rmult_le_compat_r.
  - left. by apply Rinv_0_lt_compat.
  - apply sqrt_le_1_alt. by apply IZR_le.
Qed.

Lemma range_policy_ordered (v : number) :
  (Q2R (range_policy v).1 <= Q2R (range_policy v).2)%R.
Proof.
  unfold range_policy.
  destruct (js_strict_eq v (Fin (-1))); apply Qle_Rle; discriminate.
Qed.



(** ** Facts about d3.max and the collapsed scale *)

Lemma d3_max_fold_upper (values : list jsval) (acc : jsval) (m : Z) :
  acc ≠ nan →
  foldl max_step acc values = int m →
  (∀ a, acc = int a → a ≤ m) ∧ (∀ z, int z ∈ values → z ≤ m).
Proof.
  revert acc. induction values as [|v values IH]; intros acc Hacc Hm.
  { simpl in Hm. subst acc. split.
    - by intros a [= ->].
    - by intros z ?%elem_of_nil. }
  cbn [foldl] in Hm.
  assert (max_step acc v ≠ nan) as Hstep.
  { destruct v as [|z|], acc as [|a|]; simpl; try done.
    by destruct (a <? z). }
  destruct (IH _ Hstep Hm) as [IHacc IHin]. split.
  - intros a ->. destruct v as [|z|]; simpl in IHacc; try by apply IHacc.
    destruct (Z.ltb_spec a z); [|by apply IHacc].
    specialize (IHacc z eq_refl). lia.
  - intros z [Heq|Hz]%elem_of_cons; [subst v|by apply IHin].
    destruct acc as [|a|]; simpl in IHacc; try by apply IHacc.
    destruct (Z.ltb_spec a z); [by apply IHacc|].
    specialize (IHacc a eq_refl). lia.
Qed.

Lemma d3_max_upper (values : list jsval) (m z : Z) :
  d3_max values = int m → int z ∈ values → z ≤ m.
Proof.
  intros Hm Hz. by apply (d3_max_fold_upper values undefined m).
Qed.

Lemma d3_max_fold_in (values : list jsval) (acc : jsval) (m : Z) :
  foldl max_step acc values = int m → acc = int m ∨ int m ∈ values.
Proof.
  revert acc. induction values as [|v values IH]; intros acc Hm.
  { by left. }
  cbn [foldl] in Hm. destruct (IH _ Hm) as [Hstep|Hin].
  - destruct v as [|z|]; simpl in Hstep; try by left.
    destruct acc as [|a|]; simpl in Hstep.
    + right. rewrite Hstep. apply elem_of_cons. by left.
    + destruct (a <? z); [|by left].
      right. rewrite Hstep. apply elem_of_cons. by left.
    + by left.
  - right. apply elem_of_cons. by right.
Qed.

Lemma field_values_elem (f : Station → jsval) (h : store)
    (stations : list loc) (v : jsval) :
  v ∈ field_values f h stations ↔
  ∃ l d, l ∈ stations ∧ h !! l = Some d ∧ f d = v.
Proof.
  unfold field_values. rewrite list_elem_of_omap. split.
  - intros (l & Hl & Hv). destruct (h !! l) as [d|] eqn:Hd; [|done].
    injection Hv as <-. by exists l, d.
  - intros (l & d & Hl & Hd & <-). exists l. by rewrite Hd.
Qed.


Lemma interpolateNumber_between (a b t : R) :
  (a <= b)%R → (0 <= t <= 1)%R →
  (a <= interpolateNumber a b t <= b)%R.
Proof. intros Hab Ht. unfold interpolateNumber. nra. Qed.

Lemma sqrt_ratio_unit (m x : Z) :
  0 < m → 0 ≤ x ≤ m → (0 <= sqrt (IZR x) / sqrt (IZR m) <= 1)%R.
Proof.
  intros Hm [Hx Hxm]. pose proof (sqrt_IZR_pos m Hm) as Hpos.
  pose proof (sqrt_ratio_mono m 0 x Hm) as Hlo.
  pose proof (sqrt_ratio_mono m x m Hm) as Hhi.
  rewrite sqrt_0 in Hlo. unfold Rdiv in Hlo at 1.
  rewrite Rmult_0_l in Hlo.
  unfold Rdiv in Hhi at 2. rewrite Rinv_r in Hhi by lra.
  split; [apply Hlo|apply Hhi]; lia.
Qed.

(** The scale on a collapsed domain. *)
Lemma scale_apply_collapsed (s : SqrtScale) (x : Z) :
  domain s = (Fin 0, Fin (inject_Z 0)) →
  scale_apply s (int x) = Some (range_midpoint s).
Proof.
  intros Hdom. unfold scale_apply, range_midpoint. rewrite Hdom.
  cbn [to_number]. f_equal.
  unfold bimap. destruct (Rlt_dec _ _) as [Hlt|_].
  { exfalso. revert Hlt. apply Rlt_irrefl. }
  unfold normalize. destruct (Req_dec_T _ _) as [_|Hne].
  - unfold interpolateNumber. lra.
  - exfalso. apply Hne. change (inject_Z 0) with 0%Q. lra.
Qed.

Lemma Qle_bool_ratio (n d : positive) (b t : Z) :
  0 < t →
  Qle_bool (Z.pos n # d) (inject_Z b / inject_Z t)
  = (Z.pos n * t <=? b * Z.pos d).
Proof.
  intros Ht. destruct t as [|p|p]; try lia.
  unfold Qle_bool, Qdiv, Qmult, Qinv, inject_Z. simpl.
  by rewrite Z.mul_1_r.
Qed.





(** ** Properties of the aggregation *)

(** C1 (as amended). For every station array and trip array, aggregation
    leaves in every station object of the array departures equal to the
    number of trips starting at its id, arrivals equal to the number of
    trips ending at its id and totalTraffic equal to arrivals + departures;
    and when the ids of the array are pairwise distinct, the sum of
    arrivals and the sum of departures over the array are at most the
    number of trips. *)
Theorem computeStationTraffic_counts (h : store) (stations : list loc)
    (trips : list Trip) :
  (∀ l s, l ∈ stations → h !! l = Some s →
     ∃ s', (computeStationTraffic h stations trips).1 !! l = Some s'
       ∧ short_name s' = short_name s
       ∧ departures s' = int (count_trips start_station_id (short_name s) trips)
       ∧ arrivals s' = int (count_trips end_station_id (short_name s) trips)
       ∧ totalTraffic s' = js_add (arrivals s') (departures s')
       ∧ totalTraffic s' =
           int (count_trips end_station_id (short_name s) trips
                + count_trips start_station_id (short_name s) trips))
  ∧ (NoDup (station_ids h stations) →
     sum_within arrivals (computeStationTraffic h stations trips).1
                stations trips
     ∧ sum_within departures (computeStationTraffic h stations trips).1
                  stations trips).
Proof.
  split.
  - intros l s Hl Hs. eexists. split; [by apply computeStationTraffic_at|].
    by repeat split.
  - intros Hnd. split.
    + apply (sum_within_counts end_station_id); [|done].
      intros s. by rewrite update_station_counts.
    + apply (sum_within_counts start_station_id); [|done].
      intros s. by rewrite update_station_counts.
Qed.

Lemma computeStationTraffic_counts_witness :
  (0%nat ∈ Scenario.stations0
   ∧ Scenario.h0 !! 0%nat = Some Scenario.stationA
   ∧ NoDup (station_ids Scenario.h0 Scenario.stations0))
  ∧ (∃ s', (computeStationTraffic Scenario.h0 Scenario.stations0
                                  Scenario.trips0).1 !! 0%nat = Some s'
       ∧ departures s' = int 1 ∧ arrivals s' = int 1
       ∧ totalTraffic s' = int 2)
  ∧ sum_within arrivals
      (computeStationTraffic Scenario.h0 Scenario.stations0
                             Scenario.trips0).1
      Scenario.stations0 Scenario.trips0
  ∧ sum_within departures
      (computeStationTraffic Scenario.h0 Scenario.stations0
                             Scenario.trips0).1
      Scenario.stations0 Scenario.trips0.
Proof.
  assert (0%nat ∈ Scenario.stations0) as Hin
    by (apply elem_of_cons; by left).
  assert (Scenario.h0 !! 0%nat = Some Scenario.stationA) as Hlive
    by reflexivity.
  assert (NoDup (station_ids Scenario.h0 Scenario.stations0)) as Hnd
    by (apply (bool_decide_unpack _); vm_compute; exact I).
  destruct (computeStationTraffic_counts Scenario.h0 Scenario.stations0
              Scenario.trips0) as [Hper Hsum].
  split; [by repeat split|].
  split.
  - destruct (Hper 0%nat Scenario.stationA Hin Hlive)
      as (s' & Hs' & _ & Hd & Ha & _ & Ht).
    exists s'. by repeat split.
  - by apply Hsum.
Defined.

(** C1, as stated, fails when two station records carry the same id: with
    two records "A" and the single trip A -> B, the departures sum to 2
    while there is one trip. *)
Lemma computeStationTraffic_sum_exceeds_with_twins :
  ¬ sum_within departures
      (computeStationTraffic Scenario.twins Scenario.stations0
                             [Scenario.trip1]).1
      Scenario.stations0 [Scenario.trip1].
Proof.
  intros (z & Hz & Hle). vm_compute in Hz.
  injection Hz as <-. simpl in Hle. lia.
Qed.

(** C5. Running the aggregation a second time on its own result, with the
    same trips, returns the same store and the same array; more generally
    a pass overwrites whatever an earlier pass (over any trips) left in
    the derived fields. *)
Theorem computeStationTraffic_idempotent (h : store) (stations : list loc)
    (trips : list Trip) :
  computeStationTraffic (computeStationTraffic h stations trips).1
                        (computeStationTraffic h stations trips).2 trips
  = computeStationTraffic h stations trips
  ∧ ∀ earlier,
      computeStationTraffic (computeStationTraffic h stations earlier).1
                            (computeStationTraffic h stations earlier).2
                            trips
      = computeStationTraffic h stations trips.
Proof.
  split; [|intros earlier]; apply computeStationTraffic_overwrite.
Qed.

(** No accumulation on the scenario: after two passes station A still
    counts one arrival and one departure. *)
Example computeStationTraffic_twice_scenario :
  arrivals <$>
    (computeStationTraffic
       (computeStationTraffic Scenario.h0 Scenario.stations0
                              Scenario.trips0).1
       Scenario.stations0 Scenario.trips0).1 !! 0%nat = Some (int 1).
Proof. reflexivity. Qed.

(** C6 (as amended). A trip with an id that matches no station of the
    array contributes nothing for that endpoint, and an id that does match
    is counted whatever the other id of the trip is: every station gets as
    arrivals the number of trips ending at its id and as departures the
    number of trips starting at its id, so that one more trip adds 1 to
    the arrivals of the station it ends at (if any), 1 to the departures of
    the station it starts at (if any) and nothing else. Hence the
    departures are those computed from the trips with a known start, the
    arrivals those computed from the trips with a known end, and trips of
    which neither id is known can be dropped without changing the result.
    A station no trip starts or ends at gets the numbers 0, 0 and 0, and
    in every station the operands of the totalTraffic addition are
    numbers. *)
Theorem computeStationTraffic_unknown_ids (h : store) (stations : list loc)
    (trips : list Trip) :
  computeStationTraffic h stations
    (filter (λ t, known h stations (start_station_id t)
                  ∨ known h stations (end_station_id t)) trips)
  = computeStationTraffic h stations trips
  ∧ field_values departures
      (computeStationTraffic h stations
         (filter (λ t, known h stations (start_station_id t)) trips)).1
      stations
    = field_values departures (computeStationTraffic h stations trips).1
        stations
  ∧ field_values arrivals
      (computeStationTraffic h stations
         (filter (λ t, known h stations (end_station_id t)) trips)).1
      stations
    = field_values arrivals (computeStationTraffic h stations trips).1
        stations
  ∧ (∀ l s, l ∈ stations → h !! l = Some s →
       ∃ s' a d,
         (computeStationTraffic h stations trips).1 !! l = Some s'
         ∧ a = count_trips end_station_id (short_name s) trips
         ∧ d = count_trips start_station_id (short_name s) trips
         ∧ arrivals s' = int a ∧ departures s' = int d
         ∧ totalTraffic s' = int (a + d)
         ∧ ((∀ t, t ∈ trips → start_station_id t ≠ short_name s
                              ∧ end_station_id t ≠ short_name s) →
            a = 0 ∧ d = 0)
         ∧ (∀ t, ∃ s'',
              (computeStationTraffic h stations (t :: trips)).1 !! l
                = Some s''
              ∧ arrivals s'' =
                  int (a + (if decide (end_station_id t = short_name s)
                            then 1 else 0))
              ∧ departures s'' =
                  int (d + (if decide (start_station_id t = short_name s)
                            then 1 else 0)))).
Proof.
  split; [|split; [|split]].
  - apply computeStationTraffic_ext. intros id Hid.
    split; (apply count_trips_filter; intros t ->); [by left|by right].
  - apply (field_values_counts_ext start_station_id).
    + intros T s. by rewrite update_station_counts.
    + intros id Hid. by apply count_trips_filter; intros t ->.
  - apply (field_values_counts_ext end_station_id).
    + intros T s. by rewrite update_station_counts.
    + intros id Hid. by apply count_trips_filter; intros t ->.
  - intros l s Hl Hs. eexists _, _, _.
    split; [by apply computeStationTraffic_at|].
    split; [done|]. split; [done|]. split; [done|]. split; [done|].
    split; [done|]. split.
    + intros Hno. split; apply count_trips_none; intros t Ht;
        by destruct (Hno t Ht).
    + intros t. eexists.
      split; [by apply computeStationTraffic_at|].
      cbn [arrivals departures]. rewrite !count_trips_cons.
      split; f_equal; lia.
Qed.

Lemma computeStationTraffic_unknown_ids_witness :
  (0%nat ∈ Scenario.stations0
   ∧ Scenario.h0 !! 0%nat = Some Scenario.stationA
   ∧ ∀ t, t ∈ [mkTrip "X" "Y" InvalidDate InvalidDate] →
       start_station_id t ≠ "A" ∧ end_station_id t ≠ "A")
  ∧ (∃ s', (computeStationTraffic Scenario.h0 Scenario.stations0
              [mkTrip "X" "Y" InvalidDate InvalidDate]).1 !! 0%nat = Some s'
       ∧ arrivals s' = int 0 ∧ departures s' = int 0
       ∧ totalTraffic s' = int 0)
  ∧ (∃ s'', (computeStationTraffic Scenario.h0 Scenario.stations0
               [mkTrip "X" "A" InvalidDate InvalidDate;
                mkTrip "X" "Y" InvalidDate InvalidDate]).1 !! 0%nat
            = Some s''
       ∧ arrivals s'' = int 1 ∧ departures s'' = int 0).
Proof.
  assert (0%nat ∈ Scenario.stations0) as Hin
    by (apply elem_of_cons; by left).
  assert (Scenario.h0 !! 0%nat = Some Scenario.stationA) as Hlive
    by reflexivity.
  assert (∀ t, t ∈ [mkTrip "X" "Y" InvalidDate InvalidDate] →
       start_station_id t ≠ "A" ∧ end_station_id t ≠ "A") as Hno.
  { intros t Ht. apply list_elem_of_singleton in Ht. subst t.
    split; discriminate. }
  split; [exact (conj Hin (conj Hlive Hno))|].
  destruct (computeStationTraffic_unknown_ids Scenario.h0 Scenario.stations0
              [mkTrip "X" "Y" InvalidDate InvalidDate])
    as (_ & _ & _ & Hper).
  destruct (Hper 0%nat Scenario.stationA Hin Hlive)
    as (s' & a & d & Hs' & _ & _ & Ha & Hd & Ht & Hzero & Hmore).
  destruct (Hzero Hno) as [-> ->].
  split; [exists s'; by repeat split|].
  destruct (Hmore (mkTrip "X" "A" InvalidDate InvalidDate))
    as (s'' & Hs'' & Ha'' & Hd'').
  exists s''. by repeat split.
Defined.

(** C6, as stated, fails for a trip of which only one id is unknown: the
    start "X" of the trip X -> A matches no station of the scenario, yet
    the trip adds one arrival to station A. *)
Lemma half_known_trip_still_counts :
  ¬ known Scenario.h0 Scenario.stations0 "X"
  ∧ arrivals <$>
      (computeStationTraffic Scenario.h0 Scenario.stations0
         [mkTrip "X" "A" InvalidDate InvalidDate]).1 !! 0%nat
    = Some (int 1)
  ∧ arrivals <$>
      (computeStationTraffic Scenario.h0 Scenario.stations0 []).1 !! 0%nat
    = Some (int 0).
Proof.
  split; [|split; reflexivity].
  apply (bool_decide_unpack _). vm_compute. exact I.
Qed.

(** ** Properties of trip selection *)

Lemma Qabs_inject_Z_minus (a m : Z) :
  Qle_bool (Qabs (inject_Z a - inject_Z m)) 60 = (Z.abs (a - m) <=? 60).
Proof.
  unfold Qle_bool, Qabs, Qminus, Qplus, Qopp, inject_Z. simpl.
  replace (a * 1 + - m * 1) with (a - m) by lia.
  by rewrite Z.mul_1_r.
Qed.

Lemma js_strict_eq_inject_Z (m : Z) :
  js_strict_eq (Fin (inject_Z m)) (Fin (-1)) = (m =? -1).
Proof.
  unfold js_strict_eq, Qeq_bool, inject_Z. simpl. by rewrite Z.mul_1_r.
Qed.

Lemma near_minute_number (m : Z) (date : Date) :
  js_le (Math_abs (js_sub (minutesSinceMidnight date) (Fin (inject_Z m))))
        (Fin 60)
  = near_minute m date.
Proof.
  destruct date as [day hours minutes|]; [|done].
  cbn [minutesSinceMidnight js_sub Math_abs js_le near_minute].
  apply Qabs_inject_Z_minus.
Qed.

Lemma within_hour_minute (m : Z) (trip : Trip) :
  within_hour (Fin (inject_Z m)) trip = selected_at m trip.
Proof.
  unfold within_hour, selected_at. by rewrite !near_minute_number.
Qed.

Lemma within_hour_NaN (trip : Trip) : within_hour NaN trip = false.
Proof.
  unfold within_hour. by destruct (started_at trip), (ended_at trip).
Qed.

Lemma filter_none {A} (p : A → bool) (l : list A) :
  (∀ x, p x = false) → List.filter p l = [].
Proof.
  intros Hp. induction l as [|x l IH]; [done|].
  simpl. by rewrite Hp.
Qed.

Lemma filterTripsbyTime_NaN (trips : list Trip) :
  filterTripsbyTime trips NaN = [].
Proof.
  unfold filterTripsbyTime. simpl. apply filter_none, within_hour_NaN.
Qed.

Lemma filterTripsbyTime_minute (trips : list Trip) (m : Z) :
  m ≠ -1 →
  filterTripsbyTime trips (Fin (inject_Z m)) =
  List.filter (selected_at m) trips.
Proof.
  intros Hm. unfold filterTripsbyTime.
  rewrite js_strict_eq_inject_Z.
  destruct (Z.eqb_spec m (-1)) as [|_]; [done|].
  apply List.filter_ext. intros t. apply within_hour_minute.
Qed.

(** C2. The value -1 returns the trips unchanged. For a minute [m] in
    [0, 1439] the result is the sub-list of the trips selected by the
    window test, so that a trip with valid timestamps is in the result iff
    it is in the input and |minutesOfDay(startedAt) - m| <= 60 or
    |minutesOfDay(endedAt) - m| <= 60. The window does not wrap: with
    m = 10 a timestamp at 23:50 fails the test and a trip starting and
    ending at 23:50 is not selected. *)
Theorem filterTripsbyTime_spec (trips : list Trip) :
  filterTripsbyTime trips (Fin (-1)) = trips
  ∧ (∀ m, 0 ≤ m ≤ 1439 →
      filterTripsbyTime trips (Fin (inject_Z m)) =
        List.filter (selected_at m) trips
      ∧ ∀ t d1 h1 m1 d2 h2 m2,
          started_at t = DateTime d1 h1 m1 →
          ended_at t = DateTime d2 h2 m2 →
          (t ∈ filterTripsbyTime trips (Fin (inject_Z m)) ↔
           t ∈ trips
           ∧ (Z.abs (minutesOfDay h1 m1 - m) ≤ 60
              ∨ Z.abs (minutesOfDay h2 m2 - m) ≤ 60)))
  ∧ (∀ day, near_minute 10 (DateTime day 23 50) = false)
  ∧ filterTripsbyTime [Scenario.late_trip] (Fin 10) = [].
Proof.
  split; [done|]. split; [|split; [done|reflexivity]].
  intros m Hm.
  assert (filterTripsbyTime trips (Fin (inject_Z m)) =
          List.filter (selected_at m) trips) as Heq
    by (apply filterTripsbyTime_minute; lia).
  split; [done|].
  intros t d1 h1 m1 d2 h2 m2 Hs He. rewrite Heq.
  rewrite list_elem_of_In, List.filter_In, <- list_elem_of_In.
  unfold selected_at, near_minute. rewrite Hs, He.
  rewrite orb_true_iff, !Z.leb_le. done.
Qed.

Lemma filterTripsbyTime_spec_witness :
  (0 ≤ 480 ≤ 1439
   ∧ started_at Scenario.trip1 = DateTime 1 8 0
   ∧ ended_at Scenario.trip1 = DateTime 1 8 10)
  ∧ filterTripsbyTime Scenario.trips0 (Fin (inject_Z 480)) =
      List.filter (selected_at 480) Scenario.trips0
  ∧ (Scenario.trip1 ∈ filterTripsbyTime Scenario.trips0 (Fin (inject_Z 480))
     ↔ Scenario.trip1 ∈ Scenario.trips0
       ∧ (Z.abs (minutesOfDay 8 0 - 480) ≤ 60
          ∨ Z.abs (minutesOfDay 8 10 - 480) ≤ 60)).
Proof.
  assert (0 ≤ 480 ≤ 1439) as Hm by lia.
  destruct (filterTripsbyTime_spec Scenario.trips0) as (_ & Hat & _).
  destruct (Hat 480 Hm) as [Heq Hiff].
  split; [by repeat split|]. split; [exact Heq|].
  by apply (Hiff Scenario.trip1 1 8 0 1 8 10).
Defined.

(** The filter scenario: minute 480 selects both trips, minute 600 none. *)
Example filterTripsbyTime_scenario :
  filterTripsbyTime Scenario.trips0 (Fin 480) = Scenario.trips0
  ∧ filterTripsbyTime Scenario.trips0 (Fin 600) = [].
Proof. split; reflexivity. Qed.



(** An out-of-range integer is used as a minute as well. *)
Example out_of_range_filter_not_unfiltered :
  filterTripsbyTime Scenario.trips0 (Fin 2000) = [].
Proof. reflexivity. Qed.



(** C10. NaN is not equal to -1, so the filtering branch is taken; it
    selects no trip, and the aggregation that follows (directly, or through
    [updateTimeDisplay]) leaves arrivals, departures and totalTraffic at 0
    in every station of the array. *)
Theorem NaN_filter_selects_nothing (trips : list Trip) :
  js_strict_eq NaN (Fin (-1)) = false
  ∧ filterTripsbyTime trips NaN = []
  ∧ (∀ (h : store) stations l s,
       l ∈ stations → h !! l = Some s →
       (computeStationTraffic h stations
          (filterTripsbyTime trips NaN)).1 !! l = Some (zeroed s))
  ∧ (∀ project st l s,
       l ∈ stations st → heap st !! l = Some s →
       heap (updateTimeDisplay project NaN st).1 !! l = Some (zeroed s)).
Proof.
  split; [done|]. split; [apply filterTripsbyTime_NaN|]. split.
  - intros h stations l s Hl Hs. rewrite filterTripsbyTime_NaN.
    by apply computeStationTraffic_nil_at.
  - intros project st l s Hl Hs. rewrite updateTimeDisplay_state.
    cbn [heap set_heap_range]. rewrite filterTripsbyTime_NaN.
    by apply computeStationTraffic_nil_at.
Qed.

Lemma NaN_filter_selects_nothing_witness :
  (0%nat ∈ Scenario.stations0
   ∧ Scenario.h0 !! 0%nat = Some Scenario.stationA)
  ∧ (computeStationTraffic Scenario.h0 Scenario.stations0
       (filterTripsbyTime Scenario.trips0 NaN)).1 !! 0%nat
    = Some (zeroed Scenario.stationA).
Proof.
  assert (0%nat ∈ Scenario.stations0) as Hin
    by (apply elem_of_cons; by left).
  assert (Scenario.h0 !! 0%nat = Some Scenario.stationA) as Hlive
    by reflexivity.
  split; [by split|].
  destruct (NaN_filter_selects_nothing Scenario.trips0) as (_ & _ & Hagg & _).
  exact (Hagg Scenario.h0 Scenario.stations0 0%nat Scenario.stationA
           Hin Hlive).
Defined.

(** ** Properties of the flow scale *)

(** C9. The thresholds of the flow scale are 1/3 and 2/3, and for every
    ratio r in [0, 1] the scale gives 0 when r < 1/3, 0.5 when
    1/3 <= r < 2/3 and 1 when r >= 2/3. *)
Theorem stationFlow_thirds (r : Q) :
  (0 <= r <= 1)%Q →
  quantize_thresholds stationFlow = [1 # 3; 2 # 3]%Q
  ∧ ((r < 1 # 3)%Q → quantize_apply stationFlow (Fin r) = Some 0%Q)
  ∧ ((1 # 3 <= r)%Q ∧ (r < 2 # 3)%Q →
       quantize_apply stationFlow (Fin r) = Some (1 # 2)%Q)
  ∧ ((2 # 3 <= r)%Q → quantize_apply stationFlow (Fin r) = Some 1%Q).
Proof.
  intros _. split; [reflexivity|].
  rewrite stationFlow_apply. split; [|split].
  - intros Hr.
    assert (Qle_bool (2 # 3) r = false) as ->.
    { apply Qle_bool_false. eapply Qlt_trans; [exact Hr|reflexivity]. }
    assert (Qle_bool (1 # 3) r = false) as -> by by apply Qle_bool_false.
    done.
  - intros [Hlo Hhi].
    assert (Qle_bool (2 # 3) r = false) as -> by by apply Qle_bool_false.
    assert (Qle_bool (1 # 3) r = true) as -> by by apply Qle_bool_iff.
    done.
  - intros Hr.
    assert (Qle_bool (2 # 3) r = true) as -> by by apply Qle_bool_iff.
    done.
Qed.

Lemma stationFlow_thirds_witness :
  ((0 <= 1 # 4 <= 1)%Q ∧ (1 # 4 < 1 # 3)%Q)
  ∧ quantize_apply stationFlow (Fin (1 # 4)) = Some 0%Q.
Proof.
  assert (0 <= 1 # 4 <= 1)%Q as Hdom by (split; discriminate).
  assert (1 # 4 < 1 # 3)%Q as Hlt by reflexivity.
  split; [by split|].
  destruct (stationFlow_thirds (1 # 4) Hdom) as (_ & Hlow & _).
  exact (Hlow Hlt).
Defined.

(** The boundary values fall in the upper bucket. *)
Example stationFlow_boundaries :
  quantize_apply stationFlow (Fin (1 # 3)) = Some (1 # 2)%Q
  ∧ quantize_apply stationFlow (Fin (2 # 3)) = Some 1%Q
  ∧ quantize_apply stationFlow (Fin 0) = Some 0%Q
  ∧ quantize_apply stationFlow (Fin 1) = Some 1%Q.
Proof. repeat split; reflexivity. Qed.

(** C7. In [updateScatterPlot], for every station of the array the style
    value written is the quantized ratio: the ratio r is 0.5 when the
    station's totalTraffic is 0 and departures / totalTraffic otherwise, it
    lies in [0, 1], and the value written for the station is 0 when
    r < 1/3, 0.5 when 1/3 <= r < 2/3 and 1 when r >= 2/3, hence one of the
    three values 0, 0.5 and 1; no other style value is written for that
    element. *)
Theorem departure_ratio_style (project : projection) (v : number)
    (st : State) (i : nat) (l : loc) (s : Station) :
  stations st !! i = Some l → heap st !! l = Some s →
  ∃ d r q,
    heap (updateScatterPlot project v st).1 !! l = Some d
    ∧ mkWrite i "--departure-ratio" (Flow (Some q))
      ∈ (updateScatterPlot project v st).2
    ∧ (∀ w, w ∈ (updateScatterPlot project v st).2 →
         node w = i → name w = "--departure-ratio" →
         value w = Flow (Some q))
    ∧ departure_ratio d = Fin r
    ∧ (0 <= r <= 1)%Q
    ∧ (totalTraffic d = int 0 → r = (1 # 2)%Q)
    ∧ (totalTraffic d ≠ int 0 →
       ∃ dep tot, departures d = int dep ∧ totalTraffic d = int tot
                  ∧ r = (inject_Z dep / inject_Z tot)%Q)
    ∧ ((r < 1 # 3)%Q → q = 0%Q)
    ∧ ((1 # 3 <= r)%Q ∧ (r < 2 # 3)%Q → q = (1 # 2)%Q)
    ∧ ((2 # 3 <= r)%Q → q = 1%Q)
    ∧ (q = 0%Q ∨ q = (1 # 2)%Q ∨ q = 1%Q).
Proof.
  intros Hi Hs.
  assert (l ∈ stations st) as Hl by by eapply list_elem_of_lookup_2.
  pose proof (computeStationTraffic_at (heap st) (stations st)
                (filterTripsbyTime (trips st) v) l s Hl Hs) as Hd.
  set (a := count_trips end_station_id (short_name s)
              (filterTripsbyTime (trips st) v)) in *.
  set (b := count_trips start_station_id (short_name s)
              (filterTripsbyTime (trips st) v)) in *.
  set (d := mkStation (short_name s) (lon s) (lat s)
              (int a) (int b) (int (a + b))) in *.
  destruct (departure_ratio_counts d a b) as (r & Hr & Hdom & Hzero & Hnz);
    [apply count_trips_nonneg|apply count_trips_nonneg|done|done|].
  assert (quantize_apply stationFlow (departure_ratio d) =
          Some (if Qle_bool (2 # 3) r then 1
                else if Qle_bool (1 # 3) r then 1 # 2 else 0)%Q) as Hq
    by (rewrite Hr; apply stationFlow_apply).
  exists d, r, (if Qle_bool (2 # 3) r then 1
                else if Qle_bool (1 # 3) r then 1 # 2 else 0)%Q.
  split; [by rewrite updateScatterPlot_state|].
  split.
  { rewrite updateScatterPlot_writes. cbv zeta.
    rewrite !elem_of_app. right. right. right.
    apply selection_attr_elem. exists i, l, d.
    split; [done|]. split; [done|]. by rewrite Hq. }
  split.
  { intros w. rewrite updateScatterPlot_writes. cbv zeta.
    rewrite !elem_of_app.
    intros [Hw|[Hw|[Hw|Hw]]] Hnode Hname;
      try (apply selection_attr_name in Hw; rewrite Hw in Hname;
           discriminate).
    apply selection_attr_elem in Hw as (i' & l' & d' & Hi' & Hd' & ->).
    simpl in Hnode. subst i'.
    assert (l' = l) as -> by congruence.
    assert (d' = d) as -> by congruence.
    simpl. by rewrite Hq. }
  split; [done|]. split; [done|].
  split.
  { intros [= Ht]. by apply Hzero. }
  split.
  { intros Ht. exists b, (a + b). split; [done|]. split; [done|].
    apply Hnz. intros Hz. apply Ht. simpl. by rewrite Hz. }
  split.
  { intros Hlow.
    assert (Qle_bool (2 # 3) r = false) as ->.
    { apply Qle_bool_false. eapply Qlt_trans; [exact Hlow|reflexivity]. }
    assert (Qle_bool (1 # 3) r = false) as -> by by apply Qle_bool_false.
    done. }
  split.
  { intros [Hlo Hhi].
    assert (Qle_bool (2 # 3) r = false) as -> by by apply Qle_bool_false.
    assert (Qle_bool (1 # 3) r = true) as -> by by apply Qle_bool_iff.
    done. }
  split.
  { intros Hhi.
    assert (Qle_bool (2 # 3) r = true) as -> by by apply Qle_bool_iff.
    done. }
  destruct (Qle_bool (2 # 3) r); [by right; right|].
  destruct (Qle_bool (1 # 3) r); [by right; left|by left].
Qed.

Lemma departure_ratio_style_witness :
  (Scenario.stations0 !! 0%nat = Some 0%nat
   ∧ Scenario.h0 !! 0%nat = Some Scenario.stationA)
  ∧ mkWrite 0 "--departure-ratio" (Flow (Some (1 # 2)%Q))
    ∈ (updateScatterPlot Scenario.project0 (Fin 480)
         (mkState Scenario.h0 Scenario.stations0 Scenario.trips0
                 (mkSqrtScale (Fin 0, Fin 2) (0, 25)%Q)
                 Scenario.stations0 (Fin 480))).2.
Proof.
  assert (Scenario.stations0 !! 0%nat = Some 0%nat) as Hi by reflexivity.
  assert (Scenario.h0 !! 0%nat = Some Scenario.stationA) as Hs
    by reflexivity.
  split; [by split|].
  destruct (departure_ratio_style Scenario.project0 (Fin 480)
              (mkState Scenario.h0 Scenario.stations0 Scenario.trips0
                 (mkSqrtScale (Fin 0, Fin 2) (0, 25)%Q)
                 Scenario.stations0 (Fin 480))
              0%nat 0%nat Scenario.stationA Hi Hs)
    as (d & r & q & Hd & Hw & _ & Hr & _ & _ & _ & _ & Hmid & _).
  rewrite updateScatterPlot_state in Hd.
  assert (Some d = Some (mkStation "A" 0 0 (int 1) (int 1) (int 2))) as Hc
    by (etrans; [symmetry; exact Hd|reflexivity]).
  injection Hc as ->.
  assert (Fin r = Fin (1 # 2)) as Hr'
    by (etrans; [symmetry; exact Hr|reflexivity]).
  injection Hr' as ->.
  rewrite Hmid in Hw; [exact Hw|].
  split; [discriminate|reflexivity].
Defined.

(** On the scenario at minute 480 station A has one departure out of a
    traffic of two: ratio 1/2, style value 0.5. *)
Example departure_ratio_scenario :
  (λ d, (departure_ratio d, quantize_apply stationFlow (departure_ratio d)))
    <$> (computeStationTraffic Scenario.h0 Scenario.stations0
           (filterTripsbyTime Scenario.trips0 (Fin 480))).1 !! 0%nat
  = Some (Fin (1 / 2), Some (1 # 2)%Q).
Proof. reflexivity. Qed.

(** ** Properties of the reactive pipeline *)




(** C8 (as amended). A view-transform event leaves the state as it is: the
    store (hence every station's arrivals, departures and totalTraffic) and
    the radius scale's domain and range are unchanged. On every element of
    [circles] the handler re-derives cx and cy from the projection, and it
    also re-applies r from the radius scale and the station's
    totalTraffic; it writes nothing else. *)
Theorem updatePositions_frame (project : projection) (st : State) :
  (updatePositions project st).1 = st
  ∧ heap (updatePositions project st).1 = heap st
  ∧ domain (radiusScale (updatePositions project st).1)
    = domain (radiusScale st)
  ∧ range (radiusScale (updatePositions project st).1)
    = range (radiusScale st)
  ∧ (∀ previous,
       (step (previous, st) (ViewTransform project)).1 = (project, st))
  ∧ (∀ w, w ∈ (updatePositions project st).2 ↔
       ∃ i l d, circles st !! i = Some l ∧ heap st !! l = Some d
         ∧ (w = mkWrite i "cx" (Coord (getCoords project d).1)
            ∨ w = mkWrite i "cy" (Coord (getCoords project d).2)
            ∨ w = mkWrite i "r"
                  (Radius (scale_apply (radiusScale st) (totalTraffic d))))).
Proof.
  split; [done|]. split; [done|]. split; [done|]. split; [done|].
  split; [done|].
  intros w. unfold updatePositions. cbn [snd].
  rewrite !elem_of_app, !selection_attr_elem. split.
  - intros [(i & l & d & ? & ? & ?)|[(i & l & d & ? & ? & ?)
                                    |(i & l & d & ? & ? & ?)]];
      exists i, l, d; auto.
  - intros (i & l & d & ? & ? & [?|[?|?]]);
      [left|right; left|right; right]; by exists i, l, d.
Qed.

(** C8, as stated, fails: on the scenario, right after start-up, the
    handler of a view transform also writes the attribute r. *)
Lemma updatePositions_writes_radius :
  ¬ only_positional
      (updatePositions Scenario.project0
         (reached Scenario.project0 Scenario.h0 Scenario.stations0
            Scenario.trips0 (Fin (-1)) [])).2.
Proof.
  rewrite reached_page_state.
  change (last_filter (Fin (-1)) []) with (Fin (-1)).
  intros Honly.
  destruct (Honly (mkWrite 0 "r"
              (Radius (scale_apply
                 (radiusScale (page_state Scenario.h0 Scenario.stations0
                                 Scenario.trips0 (Fin (-1))))
                 (int 2))))) as [Hcx|Hcy]; [|discriminate..].
  unfold updatePositions. cbn [snd]. rewrite !elem_of_app. right. right.
  apply selection_attr_elem.
  exists 0%nat, 0%nat, (mkStation "A" 0 0 (int 1) (int 1) (int 2)).
  split; [reflexivity|]. split; reflexivity.
Qed.

(** ** Further properties of the aggregation *)

Lemma count_trips_app key id trips1 trips2 :
  count_trips key id (trips1 ++ trips2) =
  count_trips key id trips1 + count_trips key id trips2.
Proof.
  unfold count_trips. rewrite filter_app, length_app. lia.
Qed.

Lemma count_trips_Permutation key id trips trips' :
  trips ≡ₚ trips' → count_trips key id trips = count_trips key id trips'.
Proof. intros Hp. unfold count_trips. by rewrite Hp. Qed.

Lemma sum_indicator_known (x : string) (ids : list string) :
  NoDup ids → x ∈ ids →
  sumZ ((λ id, if decide (x = id) then 1 else 0) <$> ids) = 1.
Proof.
  induction 1 as [|id ids Hnin Hnd IH]; [by intros ?%elem_of_nil|].
  intros Hx. rewrite fmap_cons, sumZ_cons. case_decide as Heq.
  - subst id.
    by rewrite (proj2 (sum_indicator_le x ids Hnd) Hnin).
  - rewrite IH; [done|].
    apply elem_of_cons in Hx as [?|?]; [congruence|done].
Qed.

Lemma sum_counts_known key (ids : list string) trips :
  NoDup ids → (∀ t, t ∈ trips → key t ∈ ids) →
  sumZ ((λ id, count_trips key id trips) <$> ids) = Z.of_nat (length trips).
Proof.
  intros Hnd. induction trips as [|t trips IH]; intros Hknown.
  - clear. induction ids as [|id ids IH]; [done|].
    by rewrite fmap_cons, sumZ_cons, IH.
  - assert (sumZ ((λ id, count_trips key id (t :: trips)) <$> ids) =
            sumZ ((λ id, if decide (key t = id) then 1 else 0) <$> ids)
            + sumZ ((λ id, count_trips key id trips) <$> ids)) as ->.
    { clear. induction ids as [|id ids IH]; [done|].
      rewrite !fmap_cons, !sumZ_cons, IH, count_trips_cons. lia. }
    rewrite sum_indicator_known, IH.
    + simpl length. lia.
    + intros t' Ht'. apply Hknown, elem_of_cons. by right.
    + done.
    + apply Hknown, elem_of_cons. by left.
Qed.

(** X1. [d3.rollup] with the length reducer: looking up an id no trip
    carries finds nothing (the case [?? 0] covers), and an id that is found
    maps to the number of trips carrying it, which is at least 1. *)
Theorem rollup_lookup_missing_or_count (key : Trip → string)
    (trips : list Trip) (id : string) :
  (d3_rollup trips (λ v, Z.of_nat (length v)) key !! id = None
   ↔ ∀ t, t ∈ trips → key t ≠ id)
  ∧ (∀ n, d3_rollup trips (λ v, Z.of_nat (length v)) key !! id = Some n →
          n = count_trips key id trips ∧ 1 ≤ n).
Proof.
  rewrite rollup_length_lookup. split.
  - case_decide as Hc; split; try done.
    + intros _ t Ht Hk.
      assert (t ∈ filter (λ t, key t = id) trips) as Hin
        by by apply list_elem_of_filter.
      unfold count_trips in Hc.
      destruct (filter _ trips); [by apply elem_of_nil in Hin|done].
    + intros Hno. by rewrite count_trips_none in Hc.
  - intros n. case_decide as Hc; [done|]. intros [= <-].
    pose proof (count_trips_nonneg key id trips). split; [done|lia].
Qed.

Lemma rollup_lookup_missing_or_count_witness :
  d3_rollup Scenario.trips0 (λ v, Z.of_nat (length v)) start_station_id
    !! "A" = Some 1
  ∧ 1 = count_trips start_station_id "A" Scenario.trips0 ∧ 1 ≤ 1.
Proof.
  assert (d3_rollup Scenario.trips0 (λ v, Z.of_nat (length v))
            start_station_id !! "A" = Some 1) as Hget by reflexivity.
  split; [exact Hget|].
  exact (proj2 (rollup_lookup_missing_or_count start_station_id
                  Scenario.trips0 "A") 1 Hget).
Defined.

(** X2. An aggregation pass touches only the derived fields of the objects
    of the array: an object outside the array is left as it was, no object
    is added or removed, and the id and the position of every object are
    kept. *)
Theorem computeStationTraffic_frame (h : store) (stations : list loc)
    (trips : list Trip) :
  (∀ l, l ∉ stations →
     (computeStationTraffic h stations trips).1 !! l = h !! l)
  ∧ dom (computeStationTraffic h stations trips).1 = dom h
  ∧ (∀ l s', (computeStationTraffic h stations trips).1 !! l = Some s' →
       ∃ s, h !! l = Some s ∧ short_name s' = short_name s
            ∧ lon s' = lon s ∧ lat s' = lat s).
Proof.
  split; [|split].
  - intros l Hl. rewrite computeStationTraffic_lookup.
    by rewrite decide_False.
  - apply set_eq. intros l. rewrite !elem_of_dom.
    rewrite computeStationTraffic_lookup.
    case_decide; [|done]. by rewrite fmap_is_Some.
  - intros l s'. rewrite computeStationTraffic_lookup.
    case_decide.
    + destruct (h !! l) as [s|]; [|done]. simpl. intros [= <-].
      by exists s.
    + intros Hs. by exists s'.
Qed.

Lemma computeStationTraffic_frame_witness :
  ((1%nat ∉ [0%nat])
   ∧ (computeStationTraffic Scenario.h0 [0%nat] Scenario.trips0).1 !! 0%nat
     = Some (mkStation "A" 0 0 (int 1) (int 1) (int 2)))
  ∧ (computeStationTraffic Scenario.h0 [0%nat] Scenario.trips0).1 !! 1%nat
    = Scenario.h0 !! 1%nat
  ∧ ∃ s, Scenario.h0 !! 0%nat = Some s ∧ "A" = short_name s.
Proof.
  assert (1%nat ∉ [0%nat]) as Hout
    by (intros Hin; apply list_elem_of_singleton in Hin; discriminate).
  assert ((computeStationTraffic Scenario.h0 [0%nat] Scenario.trips0).1
            !! 0%nat
          = Some (mkStation "A" 0 0 (int 1) (int 1) (int 2))) as Hget
    by reflexivity.
  destruct (computeStationTraffic_frame Scenario.h0 [0%nat] Scenario.trips0)
    as (Hother & _ & Hcore).
  split; [by split|]. split; [exact (Hother 1%nat Hout)|].
  destruct (Hcore 0%nat _ Hget) as (s & Hs & Hname & _).
  by exists s.
Defined.

(** X3. The result of the aggregation does not depend on the order of the
    trips. *)
Theorem computeStationTraffic_Permutation (h : store) (stations : list loc)
    (trips trips' : list Trip) :
  trips ≡ₚ trips' →
  computeStationTraffic h stations trips =
  computeStationTraffic h stations trips'.
Proof.
  intros Hp. apply computeStationTraffic_ext. intros id _.
  split; by apply count_trips_Permutation.
Qed.

Lemma computeStationTraffic_Permutation_witness :
  [Scenario.trip1; Scenario.trip2] ≡ₚ [Scenario.trip2; Scenario.trip1]
  ∧ computeStationTraffic Scenario.h0 Scenario.stations0
      [Scenario.trip1; Scenario.trip2]
    = computeStationTraffic Scenario.h0 Scenario.stations0
        [Scenario.trip2; Scenario.trip1].
Proof.
  assert ([Scenario.trip1; Scenario.trip2]
          ≡ₚ [Scenario.trip2; Scenario.trip1]) as Hp by apply perm_swap.
  split; [exact Hp|].
  exact (computeStationTraffic_Permutation Scenario.h0 Scenario.stations0
           _ _ Hp).
Defined.

(** X4. Counts add up over concatenated trip lists: for every station of
    the array, each of arrivals, departures and totalTraffic after
    aggregating [trips1 ++ trips2] is the JavaScript sum of the values
    after aggregating [trips1] and after aggregating [trips2]. *)
Theorem computeStationTraffic_app (h : store) (stations : list loc)
    (trips1 trips2 : list Trip) (l : loc) (s : Station) :
  l ∈ stations → h !! l = Some s →
  ∃ d d1 d2,
    (computeStationTraffic h stations (trips1 ++ trips2)).1 !! l = Some d
    ∧ (computeStationTraffic h stations trips1).1 !! l = Some d1
    ∧ (computeStationTraffic h stations trips2).1 !! l = Some d2
    ∧ arrivals d = js_add (arrivals d1) (arrivals d2)
    ∧ departures d = js_add (departures d1) (departures d2)
    ∧ totalTraffic d = js_add (totalTraffic d1) (totalTraffic d2).
Proof.
  intros Hl Hs. eexists _, _, _.
  split; [by apply computeStationTraffic_at|].
  split; [by apply computeStationTraffic_at|].
  split; [by apply computeStationTraffic_at|].
  cbn [arrivals departures totalTraffic js_add].
  rewrite !count_trips_app. repeat split; f_equal; lia.
Qed.

Lemma computeStationTraffic_app_witness :
  (0%nat ∈ Scenario.stations0
   ∧ Scenario.h0 !! 0%nat = Some Scenario.stationA)
  ∧ ∃ d d1 d2,
      (computeStationTraffic Scenario.h0 Scenario.stations0
         ([Scenario.trip1] ++ [Scenario.trip2])).1 !! 0%nat = Some d
      ∧ (computeStationTraffic Scenario.h0 Scenario.stations0
           [Scenario.trip1]).1 !! 0%nat = Some d1
      ∧ (computeStationTraffic Scenario.h0 Scenario.stations0
           [Scenario.trip2]).1 !! 0%nat = Some d2
      ∧ totalTraffic d = js_add (totalTraffic d1) (totalTraffic d2).
Proof.
  assert (0%nat ∈ Scenario.stations0) as Hin
    by (apply elem_of_cons; by left).
  assert (Scenario.h0 !! 0%nat = Some Scenario.stationA) as Hlive
    by reflexivity.
  split; [by split|].
  destruct (computeStationTraffic_app Scenario.h0 Scenario.stations0
              [Scenario.trip1] [Scenario.trip2] 0%nat Scenario.stationA
              Hin Hlive)
    as (d & d1 & d2 & Hd & Hd1 & Hd2 & _ & _ & Ht).
  by exists d, d1, d2.
Defined.

(** X5. When the ids of the array are pairwise distinct and every trip
    starts and ends at an id of the array, no trip is lost: the departures
    sum to the number of trips and so do the arrivals. *)
Theorem computeStationTraffic_conservation (h : store) (stations : list loc)
    (trips : list Trip) :
  NoDup (station_ids h stations) →
  (∀ t, t ∈ trips → known h stations (start_station_id t)
                    ∧ known h stations (end_station_id t)) →
  sum_values (field_values departures
                (computeStationTraffic h stations trips).1 stations)
    = int (Z.of_nat (length trips))
  ∧ sum_values (field_values arrivals
                  (computeStationTraffic h stations trips).1 stations)
    = int (Z.of_nat (length trips)).
Proof.
  intros Hnd Hknown. split.
  - rewrite (computeStationTraffic_field_values departures
               (λ id, int (count_trips start_station_id id trips)))
      by (intros s; by rewrite update_station_counts).
    rewrite (list_fmap_compose
               (λ id, count_trips start_station_id id trips) int).
    rewrite sum_values_int, sum_counts_known; [done..|].
    intros t Ht. by destruct (Hknown t Ht).
  - rewrite (computeStationTraffic_field_values arrivals
               (λ id, int (count_trips end_station_id id trips)))
      by (intros s; by rewrite update_station_counts).
    rewrite (list_fmap_compose
               (λ id, count_trips end_station_id id trips) int).
    rewrite sum_values_int, sum_counts_known; [done..|].
    intros t Ht. by destruct (Hknown t Ht).
Qed.

Lemma computeStationTraffic_conservation_witness :
  (NoDup (station_ids Scenario.h0 Scenario.stations0)
   ∧ ∀ t, t ∈ Scenario.trips0 →
       known Scenario.h0 Scenario.stations0 (start_station_id t)
       ∧ known Scenario.h0 Scenario.stations0 (end_station_id t))
  ∧ sum_values (field_values departures
        (computeStationTraffic Scenario.h0 Scenario.stations0
           Scenario.trips0).1 Scenario.stations0)
    = int 2.
Proof.
  assert (NoDup (station_ids Scenario.h0 Scenario.stations0)) as Hnd
    by (apply (bool_decide_unpack _); vm_compute; exact I).
  assert (∀ t, t ∈ Scenario.trips0 →
       known Scenario.h0 Scenario.stations0 (start_station_id t)
       ∧ known Scenario.h0 Scenario.stations0 (end_station_id t)) as Hk.
  { intros t Ht. unfold Scenario.trips0 in Ht.
    apply elem_of_cons in Ht as [->|Ht];
      [|apply list_elem_of_singleton in Ht as ->];
      split; apply (bool_decide_unpack _); vm_compute; exact I. }
  split; [by split|].
  exact (proj1 (computeStationTraffic_conservation Scenario.h0
                  Scenario.stations0 Scenario.trips0 Hnd Hk)).
Defined.

(** ** Further properties of trip selection *)

Lemma filter_sublist_bool {A} (p : A → bool) (l : list A) :
  List.filter p l `sublist_of` l.
Proof.
  induction l as [|x l IH]; [constructor|].
  simpl. destruct (p x); by constructor.
Qed.

Lemma filter_filter_same {A} (p : A → bool) (l : list A) :
  List.filter p (List.filter p l) = List.filter p l.
Proof.
  induction l as [|x l IH]; [done|].
  simpl. destruct (p x) eqn:Hp; [|done].
  simpl. by rewrite Hp, IH.
Qed.

Lemma count_trips_sublist key id (trips trips' : list Trip) :
  trips' `sublist_of` trips →
  count_trips key id trips' ≤ count_trips key id trips.
Proof.
  intros Hsub. unfold count_trips. apply inj_le.
  induction Hsub as [|t l1 l2 Hsub IH|t l1 l2 Hsub IH]; [done| |].
  - destruct (decide (key t = id)).
    + rewrite !filter_cons_True by done. simpl. lia.
    + by rewrite !filter_cons_False by done.
  - destruct (decide (key t = id)).
    + rewrite filter_cons_True by done. simpl. lia.
    + by rewrite filter_cons_False by done.
Qed.

Lemma filterTripsbyTime_sublist_of (trips : list Trip) (v : number) :
  filterTripsbyTime trips v `sublist_of` trips.
Proof.
  unfold filterTripsbyTime. destruct (js_strict_eq v (Fin (-1))); [done|].
  apply filter_sublist_bool.
Qed.

Lemma near_minute_window (m : Z) (date : Date) :
  valid_clock date → near_minute m date = true → -60 ≤ m ≤ 1499.
Proof.
  destruct date as [day hours minutes|]; [|done].
  unfold valid_clock, near_minute, minutesOfDay.
  intros [Hh Hm]. rewrite Z.leb_le. lia.
Qed.

(** X6. For every filter value the selected trips are a sub-list of the
    trips: no trip is invented, duplicated or reordered, so at most as many
    trips come out as went in. *)
Theorem filterTripsbyTime_sublist (trips : list Trip) (v : number) :
  filterTripsbyTime trips v `sublist_of` trips
  ∧ (length (filterTripsbyTime trips v) ≤ length trips)%nat.
Proof.
  pose proof (filterTripsbyTime_sublist_of trips v) as Hsub.
  split; [done|]. by apply sublist_length.
Qed.

(** X7. Selecting twice with the same filter value selects what selecting
    once does. *)
Theorem filterTripsbyTime_idempotent (trips : list Trip) (v : number) :
  filterTripsbyTime (filterTripsbyTime trips v) v = filterTripsbyTime trips v.
Proof.
  unfold filterTripsbyTime. destruct (js_strict_eq v (Fin (-1))); [done|].
  apply filter_filter_same.
Qed.

(** X8. The window never reaches the clock from far outside the day: when
    all timestamps carry a valid clock reading (hours 0..23, minutes
    0..59), an integer filter value of at most -61 or at least 1500
    selects no trip. *)
Theorem filterTripsbyTime_far_outside_day (trips : list Trip) (m : Z) :
  Forall valid_times trips → m ≤ -61 ∨ 1500 ≤ m →
  filterTripsbyTime trips (Fin (inject_Z m)) = [].
Proof.
  intros Hvalid Hm.
  rewrite filterTripsbyTime_minute by lia.
  induction Hvalid as [|t trips [Hs He] _ IH]; [done|].
  simpl. unfold selected_at at 1.
  destruct (near_minute m (started_at t)) eqn:Hns.
  { apply near_minute_window in Hns; [lia|done]. }
  destruct (near_minute m (ended_at t)) eqn:Hne.
  { apply near_minute_window in Hne; [lia|done]. }
  done.
Qed.

Lemma filterTripsbyTime_far_outside_day_witness :
  (Forall valid_times Scenario.trips0 ∧ (1500 ≤ -61 ∨ 1500 ≤ 1500))
  ∧ filterTripsbyTime Scenario.trips0 (Fin (inject_Z 1500)) = [].
Proof.
  assert (Forall valid_times Scenario.trips0) as Hvalid.
  { repeat constructor; simpl; lia. }
  assert (1500 ≤ -61 ∨ 1500 ≤ 1500) as Hm by (right; lia).
  split; [by split|].
  exact (filterTripsbyTime_far_outside_day Scenario.trips0 1500 Hvalid Hm).
Defined.

(** The bounds of X8 are tight: minute 1499 still reaches 23:59 and minute
    -60 still reaches 00:00. *)
Example filterTripsbyTime_window_edges :
  filterTripsbyTime [mkTrip "A" "B" (DateTime 1 23 59) (DateTime 1 23 59)]
    (Fin 1499)
  = [mkTrip "A" "B" (DateTime 1 23 59) (DateTime 1 23 59)]
  ∧ filterTripsbyTime [mkTrip "A" "B" (DateTime 1 0 0) (DateTime 1 0 0)]
      (Fin (-60))
    = [mkTrip "A" "B" (DateTime 1 0 0) (DateTime 1 0 0)].
Proof. split; reflexivity. Qed.

(** X9. A trip whose two timestamps are invalid dates is dropped by every
    filter value other than -1, and kept by -1. *)
Theorem filterTripsbyTime_invalid_dates (trips : list Trip) (t : Trip)
    (v : number) :
  started_at t = InvalidDate → ended_at t = InvalidDate →
  (js_strict_eq v (Fin (-1)) = false → t ∉ filterTripsbyTime trips v)
  ∧ (js_strict_eq v (Fin (-1)) = true →
     (t ∈ filterTripsbyTime trips v ↔ t ∈ trips)).
Proof.
  intros Hs He. unfold filterTripsbyTime. split; intros ->; [|done].
  rewrite list_elem_of_In, List.filter_In. intros [_ Hw].
  unfold within_hour in Hw. rewrite Hs, He in Hw.
  by destruct v.
Qed.

Lemma filterTripsbyTime_invalid_dates_witness :
  (started_at (mkTrip "A" "B" InvalidDate InvalidDate) = InvalidDate
   ∧ ended_at (mkTrip "A" "B" InvalidDate InvalidDate) = InvalidDate
   ∧ js_strict_eq (Fin 480) (Fin (-1)) = false)
  ∧ mkTrip "A" "B" InvalidDate InvalidDate
    ∉ filterTripsbyTime [mkTrip "A" "B" InvalidDate InvalidDate] (Fin 480).
Proof.
  assert (js_strict_eq (Fin 480) (Fin (-1)) = false) as Hv by reflexivity.
  split; [by repeat split|].
  exact (proj1 (filterTripsbyTime_invalid_dates
                  [mkTrip "A" "B" InvalidDate InvalidDate]
                  (mkTrip "A" "B" InvalidDate InvalidDate) (Fin 480)
                  eq_refl eq_refl) Hv).
Defined.

(** X10. On a valid clock reading [minutesSinceMidnight] is an integer
    between 0 and 1439 from which the hour and the minute are recovered by
    division by 60, whatever the day; on the invalid date it is NaN. *)
Theorem minutesSinceMidnight_clock (day hours minutes : Z) :
  0 ≤ hours ≤ 23 → 0 ≤ minutes ≤ 59 →
  ∃ n, minutesSinceMidnight (DateTime day hours minutes) = Fin (inject_Z n)
       ∧ 0 ≤ n ≤ 1439 ∧ n / 60 = hours ∧ n mod 60 = minutes
       ∧ (∀ day', minutesSinceMidnight (DateTime day' hours minutes)
                  = Fin (inject_Z n))
       ∧ minutesSinceMidnight InvalidDate = NaN.
Proof.
  intros Hh Hm. exists (hours * 60 + minutes).
  split; [done|]. split; [lia|].
  split; [|split; [|done]].
  - rewrite Z.div_add_l by lia. rewrite Z.div_small by lia. lia.
  - rewrite Z.add_comm, Z_mod_plus_full. apply Z.mod_small. lia.
Qed.

Lemma minutesSinceMidnight_clock_witness :
  (0 ≤ 8 ≤ 23 ∧ 0 ≤ 5 ≤ 59)
  ∧ ∃ n, minutesSinceMidnight (DateTime 1 8 5) = Fin (inject_Z n)
         ∧ 0 ≤ n ≤ 1439 ∧ n / 60 = 8 ∧ n mod 60 = 5.
Proof.
  assert (0 ≤ 8 ≤ 23) as Hh by lia.
  assert (0 ≤ 5 ≤ 59) as Hm by lia.
  split; [by split|].
  destruct (minutesSinceMidnight_clock 1 8 5 Hh Hm)
    as (n & Hn & Hr & Hd & Hmod & _).
  by exists n.
Defined.

(** X11. Filtering never raises a count: for every station of the array
    and every filter value, the arrivals and the departures computed from
    the selected trips are at most those computed from all the trips. *)
Theorem filtered_counts_le_unfiltered (h : store) (stations : list loc)
    (trips : list Trip) (v : number) (l : loc) (s : Station) :
  l ∈ stations → h !! l = Some s →
  ∃ a b a' b',
    arrivals <$>
      (computeStationTraffic h stations (filterTripsbyTime trips v)).1 !! l
      = Some (int a)
    ∧ departures <$>
        (computeStationTraffic h stations (filterTripsbyTime trips v)).1 !! l
      = Some (int b)
    ∧ arrivals <$> (computeStationTraffic h stations trips).1 !! l
      = Some (int a')
    ∧ departures <$> (computeStationTraffic h stations trips).1 !! l
      = Some (int b')
    ∧ 0 ≤ a ≤ a' ∧ 0 ≤ b ≤ b'.
Proof.
  intros Hl Hs.
  rewrite !(computeStationTraffic_at _ _ _ l s) by done.
  eexists _, _, _, _. repeat split; try done;
    try apply count_trips_nonneg;
    apply count_trips_sublist, filterTripsbyTime_sublist_of.
Qed.

Lemma filtered_counts_le_unfiltered_witness :
  (0%nat ∈ Scenario.stations0
   ∧ Scenario.h0 !! 0%nat = Some Scenario.stationA)
  ∧ ∃ a a',
      arrivals <$>
        (computeStationTraffic Scenario.h0 Scenario.stations0
           (filterTripsbyTime Scenario.trips0 (Fin 600))).1 !! 0%nat
        = Some (int a)
      ∧ arrivals <$>
          (computeStationTraffic Scenario.h0 Scenario.stations0
             Scenario.trips0).1 !! 0%nat
        = Some (int a')
      ∧ 0 ≤ a ≤ a'.
Proof.
  assert (0%nat ∈ Scenario.stations0) as Hin
    by (apply elem_of_cons; by left).
  assert (Scenario.h0 !! 0%nat = Some Scenario.stationA) as Hlive
    by reflexivity.
  split; [by split|].
  destruct (filtered_counts_le_unfiltered Scenario.h0 Scenario.stations0
              Scenario.trips0 (Fin 600) 0%nat Scenario.stationA Hin Hlive)
    as (a & b & a' & b' & Ha & _ & Ha' & _ & Hle & _).
  by exists a, a'.
Defined.

(** ** Further properties of the scales and of the page *)

(** X12. In every state the page reaches, when the start-up maximum is
    positive, the radius of every station of the array is a number within
    the range of the scale: the filtered totalTraffic never exceeds the
    upper bound of the domain. *)
Theorem radius_within_range (project : projection) (h0 : store)
    (stations0 : list loc) (trips0 : list Trip) (sliderValue : number)
    (events : list event) (m : Z) (l : loc) (s : Station) :
  initial_max h0 stations0 trips0 = int m → 0 < m →
  l ∈ stations0 → h0 !! l = Some s →
  ∃ d t r,
    heap (reached project h0 stations0 trips0 sliderValue events) !! l
      = Some d
    ∧ totalTraffic d = int t ∧ 0 ≤ t ≤ m
    ∧ scale_apply
        (radiusScale (reached project h0 stations0 trips0 sliderValue events))
        (totalTraffic d) = Some r
    ∧ (Q2R (range (radiusScale
          (reached project h0 stations0 trips0 sliderValue events))).1
       <= r
       <= Q2R (range (radiusScale
            (reached project h0 stations0 trips0 sliderValue events))).2)%R.
Proof.
  intros Hmax Hm Hl Hs. rewrite reached_page_state.
  set (v := last_filter sliderValue events).
  cbn [page_state heap radiusScale range].
  pose proof (computeStationTraffic_at h0 stations0
                (filterTripsbyTime trips0 v) l s Hl Hs) as Hd.
  pose proof (computeStationTraffic_at h0 stations0 trips0 l s Hl Hs)
    as Hall.
  set (a := count_trips end_station_id (short_name s)
              (filterTripsbyTime trips0 v)) in *.
  set (b := count_trips start_station_id (short_name s)
              (filterTripsbyTime trips0 v)) in *.
  set (a' := count_trips end_station_id (short_name s) trips0) in *.
  set (b' := count_trips start_station_id (short_name s) trips0) in *.
  assert (0 ≤ a ≤ a') as Ha.
  { split; [apply count_trips_nonneg|].
    apply count_trips_sublist, filterTripsbyTime_sublist_of. }
  assert (0 ≤ b ≤ b') as Hb.
  { split; [apply count_trips_nonneg|].
    apply count_trips_sublist, filterTripsbyTime_sublist_of. }
  assert (a' + b' ≤ m) as Hle.
  { apply (d3_max_upper _ _ _ Hmax). unfold field_values.
    apply list_elem_of_omap. exists l. split; [done|].
    by rewrite Hall. }
  eexists _, (a + b), _. split; [exact Hd|].
  cbn [totalTraffic]. split; [done|]. split; [lia|].
  rewrite (scale_apply_sqrt _ m (a + b)); [|by rewrite Hmax|done|lia].
  split; [done|].
  apply interpolateNumber_between.
  - apply range_policy_ordered.
  - apply sqrt_ratio_unit; lia.
Qed.

Lemma radius_within_range_witness :
  (initial_max Scenario.h0 Scenario.stations0 Scenario.trips0 = int 2
   ∧ 0 < 2 ∧ 0%nat ∈ Scenario.stations0
   ∧ Scenario.h0 !! 0%nat = Some Scenario.stationA)
  ∧ ∃ d t,
      heap (reached Scenario.project0 Scenario.h0 Scenario.stations0
              Scenario.trips0 (Fin (-1)) [SliderInput (Fin 600)]) !! 0%nat
        = Some d
      ∧ totalTraffic d = int t ∧ 0 ≤ t ≤ 2.
Proof.
  assert (initial_max Scenario.h0 Scenario.stations0 Scenario.trips0
          = int 2) as Hmax by reflexivity.
  assert (0 < 2) as Hpos by lia.
  assert (0%nat ∈ Scenario.stations0) as Hin
    by (apply elem_of_cons; by left).
  assert (Scenario.h0 !! 0%nat = Some Scenario.stationA) as Hlive
    by reflexivity.
  split; [by repeat split|].
  destruct (radius_within_range Scenario.project0 Scenario.h0
              Scenario.stations0 Scenario.trips0 (Fin (-1))
              [SliderInput (Fin 600)] 2 0%nat Scenario.stationA
              Hmax Hpos Hin Hlive)
    as (d & t & r & Hd & Ht & Hle & _).
  by exists d, t.
Defined.

(** X13. When the start-up maximum is 0 (no trip touches a station of the
    array) the domain of the radius scale is collapsed, and in every state
    the page reaches the scale maps every count to the midpoint of its
    range, not to the range minimum. *)
Theorem radiusScale_collapsed_domain (project : projection) (h0 : store)
    (stations0 : list loc) (trips0 : list Trip) (sliderValue : number)
    (events : list event) (x : Z) :
  initial_max h0 stations0 trips0 = int 0 →
  scale_apply
    (radiusScale (reached project h0 stations0 trips0 sliderValue events))
    (int x)
  = Some (range_midpoint
            (radiusScale
               (reached project h0 stations0 trips0 sliderValue events)))
  ∧ (Q2R (range (radiusScale
        (reached project h0 stations0 trips0 sliderValue events))).1
     < range_midpoint
         (radiusScale
            (reached project h0 stations0 trips0 sliderValue events)))%R.
Proof.
  intros Hmax. rewrite reached_page_state. split.
  - apply scale_apply_collapsed.
    cbn [page_state radiusScale domain]. by rewrite Hmax.
  - unfold range_midpoint. cbn [page_state radiusScale range].
    unfold range_policy.
    destruct (js_strict_eq _ _); cbn [fst snd].
    + assert (Q2R 0 < Q2R 25)%R by (apply Qlt_Rlt; reflexivity). lra.
    + assert (Q2R 3 < Q2R 50)%R by (apply Qlt_Rlt; reflexivity). lra.
Qed.

Lemma radiusScale_collapsed_domain_witness :
  initial_max Scenario.h0 Scenario.stations0 [] = int 0
  ∧ scale_apply
      (radiusScale (reached Scenario.project0 Scenario.h0
                      Scenario.stations0 [] (Fin (-1)) []))
      (int 0)
    = Some (range_midpoint
              (radiusScale (reached Scenario.project0 Scenario.h0
                              Scenario.stations0 [] (Fin (-1)) []))).
Proof.
  assert (initial_max Scenario.h0 Scenario.stations0 [] = int 0) as Hmax
    by reflexivity.
  split; [exact Hmax|].
  exact (proj1 (radiusScale_collapsed_domain Scenario.project0 Scenario.h0
                  Scenario.stations0 [] (Fin (-1)) [] 0 Hmax)).
Defined.

(** X14. The variables of the handlers' closure (the store with the
    derived fields of the stations, the station and trip arrays, the
    radius scale and the filter value) depend on the events only through
    the last slider value: after any sequence of slider inputs and view
    transforms they are what a fresh start with that value gives. The
    elements of the document are outside this statement. *)
Theorem reached_history_independent (project project' : projection)
    (h0 : store) (stations0 : list loc) (trips0 : list Trip)
    (sliderValue : number) (events : list event) :
  reached project h0 stations0 trips0 sliderValue events
  = reached project' h0 stations0 trips0
      (last_filter sliderValue events) [].
Proof. by rewrite !reached_page_state. Qed.

(** X15. The flow scale is non-decreasing, sends every finite input below
    the domain to 0 and above it to 1, -Infinity to 0 and Infinity to 1,
    and gives no value for NaN. *)
Theorem stationFlow_monotone_clamped (r r' : Q) :
  ((r <= r')%Q →
   ∃ q q', quantize_apply stationFlow (Fin r) = Some q
           ∧ quantize_apply stationFlow (Fin r') = Some q'
           ∧ (q <= q')%Q)
  ∧ ((r < 0)%Q → quantize_apply stationFlow (Fin r) = Some 0%Q)
  ∧ ((1 < r)%Q → quantize_apply stationFlow (Fin r) = Some 1%Q)
  ∧ quantize_apply stationFlow NegInfinity = Some 0%Q
  ∧ quantize_apply stationFlow Infinity = Some 1%Q
  ∧ quantize_apply stationFlow NaN = None.
Proof.
  split; [|split; [|split; [|by repeat split]]].
  - intros Hle. rewrite !stationFlow_apply. eexists _, _.
    split; [done|]. split; [done|].
    destruct (Qle_bool (2 # 3) r) eqn:H2.
    { apply Qle_bool_iff in H2.
      assert (Qle_bool (2 # 3) r' = true) as ->; [|apply Qle_refl].
      apply Qle_bool_iff. by eapply Qle_trans. }
    destruct (Qle_bool (1 # 3) r) eqn:H1.
    { apply Qle_bool_iff in H1.
      destruct (Qle_bool (2 # 3) r'); [discriminate|].
      assert (Qle_bool (1 # 3) r' = true) as ->; [|apply Qle_refl].
      apply Qle_bool_iff. by eapply Qle_trans. }
    destruct (Qle_bool (2 # 3) r'); [discriminate|].
    destruct (Qle_bool (1 # 3) r'); [discriminate|apply Qle_refl].
  - intros Hr. rewrite stationFlow_apply.
    assert (Qle_bool (2 # 3) r = false) as ->.
    { apply Qle_bool_false. eapply Qlt_trans; [exact Hr|reflexivity]. }
    assert (Qle_bool (1 # 3) r = false) as ->; [|done].
    apply Qle_bool_false. eapply Qlt_trans; [exact Hr|reflexivity].
  - intros Hr. rewrite stationFlow_apply.
    assert (Qle_bool (2 # 3) r = true) as ->; [|done].
    apply Qle_bool_iff, Qlt_le_weak.
    eapply Qlt_trans; [|exact Hr]. reflexivity.
Qed.

Lemma stationFlow_monotone_clamped_witness :
  ((1 # 4 <= 3 # 4)%Q ∧ (-1 < 0)%Q ∧ (1 < 2)%Q)
  ∧ quantize_apply stationFlow (Fin (-1)) = Some 0%Q
  ∧ quantize_apply stationFlow (Fin 2) = Some 1%Q.
Proof.
  assert (-1 < 0)%Q as Hneg by reflexivity.
  assert (1 < 2)%Q as Hbig by reflexivity.
  split; [repeat split; discriminate|]. split.
  - exact (proj1 (proj2 (stationFlow_monotone_clamped (-1) (-1))) Hneg).
  - exact (proj1 (proj2 (proj2 (stationFlow_monotone_clamped 2 2))) Hbig).
Defined.

(** X16. After an aggregation pass the style value of a station follows
    from its two counts alone: 0.5 when it has no traffic; otherwise 1 when
    its departures are at least twice its arrivals, 0 when its arrivals are
    more than twice its departures, and 0.5 in between. *)
Theorem flow_from_counts (h : store) (stations : list loc)
    (trips : list Trip) (l : loc) (s : Station) :
  l ∈ stations → h !! l = Some s →
  ∃ d arr dep,
    (computeStationTraffic h stations trips).1 !! l = Some d
    ∧ arrivals d = int arr ∧ departures d = int dep
    ∧ quantize_apply stationFlow (departure_ratio d)
      = Some (if arr + dep =? 0 then (1 # 2)%Q else flow_of_counts arr dep).
Proof.
  intros Hl Hs. eexists _, _, _.
  split; [by apply computeStationTraffic_at|].
  split; [done|]. split; [done|].
  set (a := count_trips end_station_id (short_name s) trips).
  set (b := count_trips start_station_id (short_name s) trips).
  assert (0 ≤ a) as Ha by apply count_trips_nonneg.
  assert (0 ≤ b) as Hb by apply count_trips_nonneg.
  unfold departure_ratio. cbn [totalTraffic departures].
  destruct (Z.eqb_spec (a + b) 0) as [Hz|Hnz].
  - rewrite Hz. reflexivity.
  - assert (is_zero (int (a + b)) = false) as ->.
    { destruct (a + b); done. }
    unfold js_div. destruct (Z.eqb_spec (a + b) 0) as [|_]; [done|].
    rewrite stationFlow_apply, !Qle_bool_ratio by lia.
    unfold flow_of_counts. f_equal.
    destruct (Z.leb_spec (2 * (a + b)) (b * 3)),
             (Z.leb_spec (2 * a) b); try lia; [done|].
    destruct (Z.leb_spec (1 * (a + b)) (b * 3)),
             (Z.leb_spec a (2 * b)); try lia; done.
Qed.

Lemma flow_from_counts_witness :
  (0%nat ∈ Scenario.stations0
   ∧ Scenario.h0 !! 0%nat = Some Scenario.stationA)
  ∧ ∃ d,
      (computeStationTraffic Scenario.h0 Scenario.stations0
         [Scenario.trip1]).1 !! 0%nat = Some d
      ∧ quantize_apply stationFlow (departure_ratio d) = Some 1%Q.
Proof.
  assert (0%nat ∈ Scenario.stations0) as Hin
    by (apply elem_of_cons; by left).
  assert (Scenario.h0 !! 0%nat = Some Scenario.stationA) as Hlive
    by reflexivity.
  split; [by split|].
  destruct (flow_from_counts Scenario.h0 Scenario.stations0
              [Scenario.trip1] 0%nat Scenario.stationA Hin Hlive)
    as (d & arr & dep & Hd & Harr & Hdep & Hflow).
  exists d. split; [exact Hd|].
  assert (Some d = Some (mkStation "A" 0 0 (int 0) (int 1) (int 1))) as Hc
    by (etrans; [symmetry; exact Hd|reflexivity]).
  injection Hc as ->. reflexivity.
Defined.

(** X17. The upper bound of the domain of the radius scale is the
    totalTraffic, after the start-up aggregation, of some station of the
    array, and no station of the array has a larger one. *)
Theorem initial_max_is_maximum (h0 : store) (stations0 : list loc)
    (trips0 : list Trip) (m : Z) :
  initial_max h0 stations0 trips0 = int m →
  (∃ l d, l ∈ stations0
          ∧ (computeStationTraffic h0 stations0 trips0).1 !! l = Some d
          ∧ totalTraffic d = int m)
  ∧ (∀ l d t, l ∈ stations0 →
       (computeStationTraffic h0 stations0 trips0).1 !! l = Some d →
       totalTraffic d = int t → t ≤ m).
Proof.
  intros Hmax. split.
  - destruct (d3_max_fold_in _ _ _ Hmax) as [?|Hin]; [done|].
    by apply field_values_elem in Hin.
  - intros l d t Hl Hd Ht. apply (d3_max_upper _ _ _ Hmax).
    apply field_values_elem. by exists l, d.
Qed.

Lemma initial_max_is_maximum_witness :
  initial_max Scenario.h0 Scenario.stations0 Scenario.trips0 = int 2
  ∧ ∃ l d, l ∈ Scenario.stations0
      ∧ (computeStationTraffic Scenario.h0 Scenario.stations0
           Scenario.trips0).1 !! l = Some d
      ∧ totalTraffic d = int 2.
Proof.
  assert (initial_max Scenario.h0 Scenario.stations0 Scenario.trips0
          = int 2) as Hmax by reflexivity.
  split; [exact Hmax|].
  exact (proj1 (initial_max_is_maximum Scenario.h0 Scenario.stations0
                  Scenario.trips0 2 Hmax)).
Defined.


